(** * The LRU cache of [10_system_design_dsa/lru_cache_design/lru_cache.py]

    The Python class keeps a dict from keys to [Node] objects and threads the
    nodes on a doubly linked list bounded by two dummy nodes.  The embedding
    below keeps that shape: [Node] objects live in an object store addressed
    by index, [prev]/[next] hold references that may be Python's [None], the
    dict is a finite map from keys to node addresses, and every method is a
    computation in a small state-and-exception monad that also counts the
    primitive steps (attribute reads and writes, dict operations, object
    allocations) it performs.  Keys and values are taken to be integers, the
    type of the [-1] that [get] returns for a miss; an uncaught Python
    exception is the outcome [Raise]. *)

From Stdlib Require Import ZArith Lia.
From stdpp Require Import gmap list fin_maps.

Module lru_cache.

(** ** Objects *)

(** Address of a [Node] object in the store. *)
Abbreviation addr := nat.

(** A Python reference to a node: [None] or the address of a node. *)
Abbreviation ref := (option nat).

(** [class Node]: [__init__] leaves [prev] and [next] at [None]. *)
Record Node := mkNode { key : Z; val : Z; prev : ref; next : ref }.

(** [class LRUCache]: the four attributes of [self], and the store that holds
    every [Node] allocated so far ([Node(...)] appends to it). *)
Record LRUCache := mkLRUCache {
  capacity : Z;
  cache : gmap Z addr;
  head : addr;
  tail : addr;
  heap : list Node
}.

Definition with_heap (h : list Node) (s : LRUCache) : LRUCache :=
  mkLRUCache (capacity s) (cache s) (head s) (tail s) h.

Definition with_cache (m : gmap Z addr) (s : LRUCache) : LRUCache :=
  mkLRUCache (capacity s) m (head s) (tail s) (heap s).

Definition set_prev (r : ref) (n : Node) : Node := mkNode (key n) (val n) r (next n).
Definition set_next (r : ref) (n : Node) : Node := mkNode (key n) (val n) (prev n) r.

(** ** The monad: state, exceptions, step count *)

Inductive Exn := AttributeError | KeyError.

Inductive Outcome (A : Type) :=
  | Return (a : A) (s : LRUCache) (steps : nat)
  | Raise (e : Exn).
Arguments Return {A} a s steps.
Arguments Raise {A} e.

Definition M (A : Type) := LRUCache → Outcome A.

Definition ret {A} (a : A) : M A := λ s, Return a s 0.

Definition continue {A B} (o : Outcome A) (f : A → M B) : Outcome B :=
  match o with
  | Return a s c =>
      match f a s with
      | Return b s' c' => Return b s' (c + c')
      | Raise e => Raise e
      end
  | Raise e => Raise e
  end.

Definition bind {A B} (m : M A) (f : A → M B) : M B := λ s, continue (m s) f.

Declare Scope prog_scope.
Delimit Scope prog_scope with prog.
Notation "x ← m ; k" := (bind m (λ x, k))
  (at level 20, m at level 100, k at level 200, only parsing) : prog_scope.
Notation "m ;; k" := (bind m (λ _, k))
  (at level 100, k at level 200, only parsing, right associativity) : prog_scope.
Local Open Scope prog_scope.

(** *** Primitive steps, one unit of cost each *)

(** [self.capacity], [self.head], [self.tail] *)
Definition self_capacity : M Z := λ s, Return (capacity s) s 1.
Definition self_head : M ref := λ s, Return (Some (head s)) s 1.
Definition self_tail : M ref := λ s, Return (Some (tail s)) s 1.

(** [r.field]: reading an attribute of [None] raises [AttributeError]. *)
Definition load {A} (field : Node → A) (r : ref) : M A := λ s,
  match r with
  | Some a =>
      match heap s !! a with
      | Some n => Return (field n) s 1
      | None => Raise AttributeError
      end
  | None => Raise AttributeError
  end.

(** [r.field = v]: assigning an attribute of [None] raises [AttributeError]. *)
Definition store (upd : Node → Node) (r : ref) : M unit := λ s,
  match r with
  | Some a =>
      match heap s !! a with
      | Some _ => Return tt (with_heap (alter upd a (heap s)) s) 1
      | None => Raise AttributeError
      end
  | None => Raise AttributeError
  end.

(** [Node(key, val)] *)
Definition new_node (k v : Z) : M addr := λ s,
  Return (length (heap s)) (with_heap (heap s ++ [mkNode k v None None]) s) 1.

(** [key in self.cache] *)
Definition contains (k : Z) : M bool := λ s,
  Return (bool_decide (is_Some (cache s !! k))) s 1.

(** [self.cache[key]] *)
Definition getitem (k : Z) : M addr := λ s,
  match cache s !! k with
  | Some a => Return a s 1
  | None => Raise KeyError
  end.

(** [self.cache[key] = node] *)
Definition setitem (k : Z) (a : addr) : M unit := λ s,
  Return tt (with_cache (<[k := a]> (cache s)) s) 1.

(** [del self.cache[key]] *)
Definition delitem (k : Z) : M unit := λ s,
  match cache s !! k with
  | Some _ => Return tt (with_cache (delete k (cache s)) s) 1
  | None => Raise KeyError
  end.

(** [len(self.cache)] *)
Definition len : M Z := λ s, Return (Z.of_nat (size (cache s))) s 1.

(** ** The methods *)

(** [LRUCache.__init__]: no check on [capacity].  [self.cache = {}]; the two
    [Node(0, 0)] are the first two objects of the store, so [self.head] and
    [self.tail] are bound to addresses 0 and 1; then the two dummies are linked
    to each other. *)
Definition __init__ (capacity : Z) : Outcome unit :=
  (_ ← new_node 0 0;
   _ ← new_node 0 0;
   t ← self_tail;
   h ← self_head;
   store (set_next t) h;;
   h ← self_head;
   t ← self_tail;
   store (set_prev h) t)
    (mkLRUCache capacity ∅ 0 1 []).

Definition _remove (node : ref) : M unit :=
  prev_ ← load prev node;
  nxt ← load next node;
  store (set_next nxt) prev_;;
  store (set_prev prev_) nxt.

Definition _add (node : ref) : M unit :=
  h ← self_head;
  nxt ← load next h;
  h ← self_head;
  store (set_next node) h;;
  h ← self_head;
  store (set_prev h) node;;
  store (set_next nxt) node;;
  store (set_prev node) nxt.

Definition get (k : Z) : M Z :=
  found ← contains k;
  if found then
    node ← getitem k;
    _remove (Some node);;
    _add (Some node);;
    load val (Some node)
  else ret (-1)%Z.

Definition put (k value : Z) : M unit :=
  found ← contains k;
  (if found then
     old ← getitem k;
     _remove (Some old)
   else ret tt);;
  node ← new_node k value;
  _add (Some node);;
  setitem k node;;
  n ← len;
  cap ← self_capacity;
  if (n >? cap)%Z then
    t ← self_tail;
    lru ← load prev t;
    _remove lru;;
    lru_key ← load key lru;
    delitem lru_key
  else ret tt.

(** ** Sequences of calls *)

Inductive Op := Get (k : Z) | Put (k v : Z).

Definition call (op : Op) : M (option Z) :=
  match op with
  | Get k => v ← get k; ret (Some v)
  | Put k v => put k v;; ret None
  end.

Fixpoint calls (ops : list Op) : M unit :=
  match ops with
  | [] => ret tt
  | op :: rest => call op;; calls rest
  end.

(** A fresh cache of the given capacity, then the calls in order. *)
Definition session (capacity : Z) (ops : list Op) : Outcome unit :=
  continue (__init__ capacity) (λ _, calls ops).

Definition result {A} (o : Outcome A) : option A :=
  match o with Return a _ _ => Some a | Raise _ => None end.

Definition final {A} (o : Outcome A) : option LRUCache :=
  match o with Return _ s _ => Some s | Raise _ => None end.

Definition steps_of {A} (o : Outcome A) : nat :=
  match o with Return _ _ c => c | Raise _ => 0 end.

(** ** The object store under attribute writes *)

Definition next_at (h : list Node) (a : addr) : option ref := next <$> h !! a.
Definition prev_at (h : list Node) (a : addr) : option ref := prev <$> h !! a.

(** [a] and [b] are neighbours: [a.next is b] and [b.prev is a]. *)
Definition link (h : list Node) (a b : addr) : Prop :=
  next_at h a = Some (Some b) ∧ prev_at h b = Some (Some a).

(** Every two consecutive addresses of [p] are neighbours. *)
Fixpoint chain (h : list Node) (p : list addr) : Prop :=
  match p with
  | a :: ((b :: _) as q) => link h a b ∧ chain h q
  | _ => True
  end.

(** The store after [_remove] of a node whose neighbours are [pa] and [na]. *)
Definition unlink (pa na : addr) (h : list Node) : list Node :=
  alter (set_prev (Some pa)) na (alter (set_next (Some na)) pa h).

(** The store after [_add] of node [a] when [hd.next] was [n1]. *)
Definition push (hd a n1 : addr) (h : list Node) : list Node :=
  alter (set_prev (Some a)) n1
    (alter (set_next (Some n1)) a
      (alter (set_prev (Some hd)) a
        (alter (set_next (Some a)) hd h))).

(** ** The recency list and the invariant *)

(** One real (non-dummy) node as the rest of the program sees it. *)
Record entry := Entry { eaddr : addr; ekey : Z; evalue : Z }.

(** The addresses met walking [next] from the head dummy to the tail dummy
    when the real nodes, most recently used first, are [es]. *)
Definition path (s : LRUCache) (es : list entry) : list addr :=
  head s :: (eaddr <$> es) ++ [tail s].

(** The list is well linked and its real nodes are [es] (I3, I4). *)
Record Linked (s : LRUCache) (es : list entry) : Prop := mkLinked {
  linked_nodup : NoDup (path s es);
  linked_chain : chain (heap s) (path s es);
  linked_nodes : ∀ e, e ∈ es →
    key <$> heap s !! eaddr e = Some (ekey e) ∧
    val <$> heap s !! eaddr e = Some (evalue e)
}.

(** The dict indexes exactly the real nodes, each under its own key
    (I1, I3, I5). *)
Record Indexed (s : LRUCache) (es : list entry) : Prop := mkIndexed {
  indexed_keys : NoDup (ekey <$> es);
  indexed_cache : ∀ k a, cache s !! k = Some a ↔ ∃ v, Entry a k v ∈ es
}.

(** What holds between calls.  The bound is stated for any [capacity], also a
    non-positive one, where it says the cache stays empty. *)
Record Inv (s : LRUCache) (es : list entry) : Prop := mkInv {
  inv_linked : Linked s es;
  inv_indexed : Indexed s es;
  inv_bound : (Z.of_nat (length es) ≤ Z.max 0 (capacity s))%Z
}.

(** The recency list after the calls, as a function of the list before. *)
Definition without (k : Z) (es : list entry) : list entry :=
  filter (λ e, ekey e ≠ k) es.

Definition model_put (cap : Z) (a : addr) (k v : Z) (es : list entry) : list entry :=
  let es' := Entry a k v :: without k es in
  if (Z.of_nat (length es') >? cap)%Z then removelast es' else es'.

(** The entry [put] evicts, if any. *)
Definition model_victim (cap : Z) (a : addr) (k v : Z) (es : list entry) : option entry :=
  let es' := Entry a k v :: without k es in
  if (Z.of_nat (length es') >? cap)%Z then last es' else None.

Definition model_get (k : Z) (es : list entry) : list entry :=
  match filter (λ e, ekey e = k) es with
  | e :: _ => e :: without k es
  | [] => es
  end.

(** What [get] returns. *)
Definition model_result (k : Z) (es : list entry) : Z :=
  match filter (λ e, ekey e = k) es with
  | e :: _ => evalue e
  | [] => (-1)%Z
  end.

(** The model of a sequence of calls: the number of nodes allocated so far and
    the recency list. *)
Definition model_call (cap : Z) (st : nat * list entry) (op : Op) : nat * list entry :=
  match op with
  | Get k => (st.1, model_get k st.2)
  | Put k v => (S st.1, model_put cap st.1 k v st.2)
  end.

Definition model_calls (cap : Z) (ops : list Op) (st : nat * list entry) : nat * list entry :=
  foldl (model_call cap) st ops.

(** The value of the last [put] on [k] among [ops], if there is one. *)
Fixpoint last_put (k : Z) (ops : list Op) : option Z :=
  match ops with
  | [] => None
  | op :: rest =>
      match last_put k rest with
      | Some v => Some v
      | None =>
          match op with
          | Put k' v => if decide (k' = k) then Some v else None
          | Get _ => None
          end
      end
  end.

(** The real nodes met walking [next] from the head dummy up to the tail
    dummy. *)
Fixpoint walk (fuel : nat) (h : list Node) (stop : addr) (r : ref) : list addr :=
  match fuel, r with
  | S fuel', Some a =>
      if decide (a = stop) then []
      else a :: walk fuel' h stop (default None (next_at h a))
  | _, _ => []
  end.

Definition order (s : LRUCache) : list addr :=
  walk (length (heap s)) (heap s) (tail s) (default None (next_at (heap s) (head s))).

(** [n] times [get(k)], collecting what each returns. *)
Fixpoint gets (n : nat) (k : Z) : M (list Z) :=
  match n with
  | 0 => ret []
  | S n' => v ← get k; vs ← gets n' k; ret (v :: vs)
  end.

(** The key a call uses: [put] always uses its key, [get] only when it finds
    the key in the dict. *)
Definition used (op : Op) (s : LRUCache) : list Z :=
  match op with
  | Put k _ => [k]
  | Get k => if bool_decide (is_Some (cache s !! k)) then [k] else []
  end.

(** The keys used by a sequence of calls, oldest first. *)
Fixpoint trace (ops : list Op) (s : LRUCache) : list Z :=
  match ops with
  | [] => []
  | op :: rest =>
      used op s ++
      match call op s with
      | Return _ s' _ => trace rest s'
      | Raise _ => []
      end
  end.

Definition uses (capacity : Z) (ops : list Op) : list Z :=
  match __init__ capacity with
  | Return _ s _ => trace ops s
  | Raise _ => []
  end.

(** In the trace [u], [k'] was used at a time after which [k] was not used. *)
Definition more_recent (u : list Z) (k' k : Z) : Prop :=
  ∃ u1 u2, u = u1 ++ k' :: u2 ∧ k ∉ k' :: u2.

(** I4: an entry that comes earlier in the list was used more recently. *)
Definition Recent (u : list Z) (es : list entry) : Prop :=
  ∀ x y, [x; y] `sublist_of` es → more_recent u (ekey x) (ekey y).

(** Every entry of the list carries the value of the last [put] on its key. *)
Definition Hist (ops : list Op) (es : list entry) : Prop :=
  ∀ e, e ∈ es → last_put (ekey e) ops = Some (evalue e).

(** [m] never takes more than [n] primitive steps, whatever the state. *)
Definition steps_le {A} (n : nat) (m : M A) : Prop := ∀ s, steps_of (m s) ≤ n.

(** The two halves of [put] after the test [key in self.cache], named so
    that each can be given its own lemma; [put_unfold] below shows that [put] is
    exactly their composition. *)
Definition evict : M unit :=
  t ← self_tail;
  lru ← load prev t;
  _remove lru;;
  lru_key ← load key lru;
  delitem lru_key.

Definition put_tail (k value : Z) : M unit :=
  node ← new_node k value;
  _add (Some node);;
  setitem k node;;
  n ← len;
  cap ← self_capacity;
  if (n >? cap)%Z then evict else ret tt.

(** ** Further observers of the state *)

(** The real nodes met walking [prev] from the tail dummy back to the head
    dummy. *)
Fixpoint walk_back (fuel : nat) (h : list Node) (stop : addr) (r : ref) : list addr :=
  match fuel, r with
  | S fuel', Some a =>
      if decide (a = stop) then []
      else a :: walk_back fuel' h stop (default None (prev_at h a))
  | _, _ => []
  end.

Definition order_back (s : LRUCache) : list addr :=
  walk_back (length (heap s)) (heap s) (head s)
    (default None (prev_at (heap s) (tail s))).

(** The [key] attributes of the nodes of the list, in list order. *)
Definition order_keys (s : LRUCache) : list (option Z) :=
  (λ a, key <$> heap s !! a) <$> order s.

(** The number of [put] calls among [ops]. *)
Fixpoint count_puts (ops : list Op) : nat :=
  match ops with
  | [] => 0
  | Put _ _ :: rest => S (count_puts rest)
  | Get _ :: rest => count_puts rest
  end.

(** The distinct keys of a trace of uses, most recently used first. *)
Definition mru (u : list Z) : list Z :=
  foldl (λ acc k, k :: filter (λ k', k' ≠ k) acc) [] u.

(** What no method touches between two states: [capacity], [head], [tail],
    and the [key] and [val] of the nodes in the store, which in this model is
    append-only: it also keeps the nodes nothing refers to any more. *)
Definition Frame (s s' : LRUCache) : Prop :=
  capacity s' = capacity s ∧ head s' = head s ∧ tail s' = tail s ∧
  length (heap s) ≤ length (heap s') ∧
  ∀ a, a < length (heap s) →
       key <$> heap s' !! a = key <$> heap s !! a ∧
       val <$> heap s' !! a = val <$> heap s !! a.

Definition frames {A} (m : M A) : Prop :=
  ∀ s r s' c, m s = Return r s' c → Frame s s'.

(** The dummies end the list: nothing before the head, nothing after the
    tail. *)
Definition Ends (s : LRUCache) : Prop :=
  prev_at (heap s) (head s) = Some None ∧ next_at (heap s) (tail s) = Some None.

(** ** Two runs *)

Example run_evicts_2 :
  result (continue (session 2 [Put 1 10; Put 2 20; Get 1; Put 3 30]) (λ _, get 2))
  = Some (-1)%Z.
Proof. vm_compute. reflexivity. Qed.

Example run_keeps_1 :
  result (continue (session 2 [Put 1 10; Put 2 20; Get 1; Put 3 30]) (λ _, get 1))
  = Some 10%Z.
Proof. vm_compute. reflexivity. Qed.

Section store_lemmas.
Implicit Types (h : list Node) (a b x : addr) (r : ref) (p q : list addr).

Lemma field_alter {A} (f : Node → A) (upd : Node → Node) h x a :
  (∀ n, f (upd n) = f n) → f <$> alter upd x h !! a = f <$> h !! a.
Proof.
  intros Hf. destruct (decide (x = a)) as [->|Hne].
  - rewrite list_lookup_alter_eq. destruct (h !! a) as [n|]; simpl; [f_equal; apply Hf|done].
  - by rewrite list_lookup_alter_ne.
Qed.

Lemma next_at_set_prev h x r a : next_at (alter (set_prev r) x h) a = next_at h a.
Proof. by apply field_alter. Qed.

Lemma prev_at_set_next h x r a : prev_at (alter (set_next r) x h) a = prev_at h a.
Proof. by apply field_alter. Qed.

Lemma next_at_set_next_ne h x r a :
  x ≠ a → next_at (alter (set_next r) x h) a = next_at h a.
Proof. intros. unfold next_at. by rewrite list_lookup_alter_ne. Qed.

Lemma prev_at_set_prev_ne h x r a :
  x ≠ a → prev_at (alter (set_prev r) x h) a = prev_at h a.
Proof. intros. unfold prev_at. by rewrite list_lookup_alter_ne. Qed.

Lemma next_at_set_next_eq h x r :
  x < length h → next_at (alter (set_next r) x h) x = Some r.
Proof.
  intros Hx. unfold next_at. rewrite list_lookup_alter_eq.
  destruct (lookup_lt_is_Some_2 h x Hx) as [n ->]. done.
Qed.

Lemma prev_at_set_prev_eq h x r :
  x < length h → prev_at (alter (set_prev r) x h) x = Some r.
Proof.
  intros Hx. unfold prev_at. rewrite list_lookup_alter_eq.
  destruct (lookup_lt_is_Some_2 h x Hx) as [n ->]. done.
Qed.

Lemma next_at_lt h a r : next_at h a = Some r → a < length h.
Proof.
  unfold next_at. intros H. apply lookup_lt_is_Some.
  destruct (h !! a); [eauto|done].
Qed.

Lemma prev_at_lt h a r : prev_at h a = Some r → a < length h.
Proof.
  unfold prev_at. intros H. apply lookup_lt_is_Some.
  destruct (h !! a); [eauto|done].
Qed.

Lemma link_lt h a b : link h a b → a < length h ∧ b < length h.
Proof. intros [H1 H2]. eauto using next_at_lt, prev_at_lt. Qed.

(** Writes that leave a link alone. *)
Lemma link_set_next h x r a b :
  x ≠ a → link h a b → link (alter (set_next r) x h) a b.
Proof.
  intros Hne [H1 H2]. split.
  - by rewrite next_at_set_next_ne.
  - by rewrite prev_at_set_next.
Qed.

Lemma link_set_prev h x r a b :
  x ≠ b → link h a b → link (alter (set_prev r) x h) a b.
Proof.
  intros Hne [H1 H2]. split.
  - by rewrite next_at_set_prev.
  - by rewrite prev_at_set_prev_ne.
Qed.

Lemma link_alloc h n a b : link h a b → link (h ++ [n]) a b.
Proof.
  intros Hl. destruct (link_lt _ _ _ Hl) as [Ha Hb]. destruct Hl as [H1 H2].
  unfold link, next_at, prev_at in *. by rewrite !lookup_app_l.
Qed.

Lemma chain_cons h a b q : chain h (a :: b :: q) ↔ link h a b ∧ chain h (b :: q).
Proof. done. Qed.

Lemma chain_app h p b q :
  chain h (p ++ b :: q) ↔ chain h (p ++ [b]) ∧ chain h (b :: q).
Proof.
  induction p as [|a p IH]; simpl.
  - tauto.
  - destruct p as [|a' p]; simpl in *; tauto.
Qed.

Lemma chain_lt h p a : 2 ≤ length p → chain h p → a ∈ p → a < length h.
Proof.
  induction p as [|a0 p IH]; simpl; [lia|].
  destruct p as [|a1 p]; simpl; [lia|].
  intros _ [Hl Hc] Hin. apply elem_of_cons in Hin as [->|Hin].
  - by apply link_lt in Hl as [? ?].
  - destruct p as [|a2 p].
    + apply list_elem_of_singleton in Hin as ->. by apply link_lt in Hl as [? ?].
    + apply IH; [simpl; lia|done|done].
Qed.

Lemma chain_alloc h n p : chain h p → chain (h ++ [n]) p.
Proof.
  induction p as [|a p IH]; [done|].
  destruct p as [|b p]; [done|].
  intros [Hl Hc]. split; [by apply link_alloc|by apply IH].
Qed.

(** A write to [x.next] only matters where [x] is followed by something. *)
Lemma chain_set_next h x r p :
  x ∉ p → chain h p → chain (alter (set_next r) x h) p.
Proof.
  induction p as [|a p IH]; [done|].
  destruct p as [|b p]; [done|].
  intros Hx [Hl Hc]. split.
  - apply link_set_next; [|done]. set_solver.
  - apply IH; [set_solver|done].
Qed.

Lemma chain_set_next_last h x r p :
  x ∉ p → chain h (p ++ [x]) → chain (alter (set_next r) x h) (p ++ [x]).
Proof.
  induction p as [|a p IH]; [done|].
  intros Hx. change ((a :: p) ++ [x]) with (a :: (p ++ [x])).
  destruct (p ++ [x]) as [|b q] eqn:Hq; [done|].
  intros [Hl Hc]. split.
  - apply link_set_next; [|done]. set_solver.
  - apply IH; [set_solver|done].
Qed.

(** A write to [x.prev] only matters where [x] is preceded by something. *)
Lemma chain_set_prev h x r p :
  x ∉ p → chain h p → chain (alter (set_prev r) x h) p.
Proof.
  induction p as [|a p IH]; [done|].
  destruct p as [|b p]; [done|].
  intros Hx [Hl Hc]. split.
  - apply link_set_prev; [|done]. set_solver.
  - apply IH; [set_solver|done].
Qed.

Lemma chain_set_prev_first h x r p :
  x ∉ p → chain h (x :: p) → chain (alter (set_prev r) x h) (x :: p).
Proof.
  destruct p as [|b p]; [done|].
  intros Hx [Hl Hc]. split.
  - apply link_set_prev; [|done]. set_solver.
  - by apply chain_set_prev.
Qed.

(** Unlinking a node from between its neighbours. *)
Lemma unlink_chain h p pa a na q :
  NoDup (p ++ pa :: a :: na :: q) →
  chain h (p ++ pa :: a :: na :: q) →
  chain (unlink pa na h) (p ++ pa :: na :: q).
Proof.
  intros Hnd Hc.
  apply chain_app in Hc as [Hp Hc].
  apply chain_cons in Hc as [Hpa Hc]. apply chain_cons in Hc as [Hna Hq].
  apply NoDup_app in Hnd as (_ & Hdisj & Hnd).
  apply NoDup_cons in Hnd as [Hpa_nin Hnd].
  apply NoDup_cons in Hnd as [_ Hnd].
  apply NoDup_cons in Hnd as [Hna_nin _].
  assert (pa ∉ p) as Hpa_p by (intros Hin; apply (Hdisj _ Hin); set_solver).
  assert (na ∉ p) as Hna_p by (intros Hin; apply (Hdisj _ Hin); set_solver).
  assert (pa ≠ na) as Hne by set_solver.
  assert (pa ∉ q) as Hpa_q by set_solver.
  destruct (link_lt _ _ _ Hpa) as [Hlt_pa _].
  destruct (link_lt _ _ _ Hna) as [_ Hlt_na].
  unfold unlink. apply chain_app. split; [|apply chain_cons; split].
  - apply chain_set_prev; [set_solver|]. by apply chain_set_next_last.
  - split.
    + rewrite next_at_set_prev. by apply next_at_set_next_eq.
    + apply prev_at_set_prev_eq. by rewrite length_alter.
  - apply chain_set_prev_first; [done|]. apply chain_set_next; [set_solver|done].
Qed.

(** Linking an unlinked node right behind the head dummy. *)
Lemma push_chain h hd a n1 q :
  NoDup (hd :: n1 :: q) → a ∉ hd :: n1 :: q → a < length h →
  chain h (hd :: n1 :: q) →
  chain (push hd a n1 h) (hd :: a :: n1 :: q).
Proof.
  intros Hnd Ha Hlt Hc. apply chain_cons in Hc as [Hl Hq].
  apply NoDup_cons in Hnd as [Hhd Hnd]. apply NoDup_cons in Hnd as [Hn1 _].
  destruct (link_lt _ _ _ Hl) as [Hlt_hd Hlt_n1].
  assert (hd ≠ a) by set_solver. assert (a ≠ n1) by set_solver.
  assert (hd ≠ n1) by set_solver.
  unfold push. apply chain_cons; split; [|apply chain_cons; split].
  - split.
    + rewrite next_at_set_prev, next_at_set_next_ne, next_at_set_prev by done.
      by apply next_at_set_next_eq.
    + rewrite prev_at_set_prev_ne, prev_at_set_next by done.
      apply prev_at_set_prev_eq. by rewrite length_alter.
  - split.
    + rewrite next_at_set_prev. apply next_at_set_next_eq.
      by rewrite !length_alter.
    + apply prev_at_set_prev_eq. by rewrite !length_alter.
  - apply chain_set_prev_first; [done|].
    apply chain_set_next; [set_solver|].
    apply chain_set_prev; [set_solver|].
    apply chain_set_next; [set_solver|done].
Qed.

End store_lemmas.

(** ** Running the methods *)

Section runs.
Implicit Types (s : LRUCache) (a : addr).

Lemma load_run {A} (f : Node → A) s a v :
  f <$> heap s !! a = Some v → load f (Some a) s = Return v s 1.
Proof. unfold load. destruct (heap s !! a); [|done]. by intros [= ->]. Qed.

Lemma store_run upd s a :
  a < length (heap s) →
  store upd (Some a) s = Return tt (with_heap (alter upd a (heap s)) s) 1.
Proof.
  intros Hlt. unfold store.
  by destruct (lookup_lt_is_Some_2 _ _ Hlt) as [n ->].
Qed.

Lemma _remove_run s a pa na :
  prev_at (heap s) a = Some (Some pa) → next_at (heap s) a = Some (Some na) →
  pa < length (heap s) → na < length (heap s) →
  _remove (Some a) s = Return tt (with_heap (unlink pa na (heap s)) s) 4.
Proof.
  intros Hp Hn Hpa Hna. unfold _remove, bind.
  rewrite (load_run prev _ _ _ Hp); cbn [continue].
  rewrite (load_run next _ _ _ Hn); cbn [continue].
  rewrite store_run by done; cbn [continue].
  rewrite store_run by (simpl; by rewrite length_alter).
  done.
Qed.

Lemma _add_run s a n1 :
  next_at (heap s) (head s) = Some (Some n1) →
  a < length (heap s) → n1 < length (heap s) →
  _add (Some a) s = Return tt (with_heap (push (head s) a n1 (heap s)) s) 8.
Proof.
  intros Hn Ha Hn1. pose proof (next_at_lt _ _ _ Hn) as Hhd.
  unfold _add, bind, self_head; cbn [continue].
  rewrite (load_run next _ _ _ Hn); cbn [continue].
  rewrite store_run by done; cbn [continue].
  rewrite store_run by (simpl; by rewrite !length_alter); cbn [continue].
  rewrite store_run by (simpl; by rewrite !length_alter); cbn [continue].
  rewrite store_run by (simpl; by rewrite !length_alter).
  done.
Qed.

End runs.

(** ** Lists with unique keys *)

Section keyed_lists.
Implicit Types (e : entry) (es : list entry) (k : Z).

Lemma without_notin k es : k ∉ ekey <$> es → without k es = es.
Proof.
  intros Hk. unfold without. induction es as [|e es IH]; [done|].
  rewrite fmap_cons in Hk. apply not_elem_of_cons in Hk as [Hne Hk].
  rewrite filter_cons_True by done. by rewrite IH.
Qed.

Lemma without_split k es1 e es2 :
  NoDup (ekey <$> es1 ++ e :: es2) → ekey e = k →
  without k (es1 ++ e :: es2) = es1 ++ es2.
Proof.
  intros Hnd Hk. rewrite fmap_app, fmap_cons in Hnd.
  apply NoDup_app in Hnd as (_ & Hdisj & Hnd).
  apply NoDup_cons in Hnd as [Hnin _].
  assert (¬ ekey e ≠ k) as Hnn by (intros Hne; by apply Hne).
  unfold without. rewrite filter_app, filter_cons_False by exact Hnn.
  fold (without k es1). fold (without k es2).
  rewrite !without_notin; [done|by rewrite <-Hk|].
  intros Hin. apply (Hdisj _ Hin). rewrite Hk. left.
Qed.

Lemma without_keys k es : k ∉ ekey <$> without k es.
Proof.
  intros Hin. apply list_elem_of_fmap in Hin as (e & -> & He).
  apply list_elem_of_filter in He as [Hne _]. by apply Hne.
Qed.

Lemma without_NoDup k es : NoDup (ekey <$> es) → NoDup (ekey <$> without k es).
Proof.
  unfold without. induction es as [|e es IH]; [done|].
  rewrite fmap_cons. intros [Hnin Hnd]%NoDup_cons.
  destruct (decide (ekey e ≠ k)).
  - rewrite filter_cons_True by done. rewrite fmap_cons. apply NoDup_cons.
    split; [|by apply IH]. intros Hin. apply Hnin.
    apply list_elem_of_fmap in Hin as (e' & -> & He').
    apply list_elem_of_filter in He' as [_ He']. by apply list_elem_of_fmap_2.
  - rewrite filter_cons_False by done. by apply IH.
Qed.

Lemma cons_snoc e es : ∃ es' e', e :: es = es' ++ [e'].
Proof.
  revert e. induction es as [|x es IH]; intros e.
  - by exists [], e.
  - destruct (IH x) as (es' & e' & ->). by exists (e :: es'), e'.
Qed.

Lemma without_length k es : length (without k es) ≤ length es.
Proof. apply length_filter. Qed.

Lemma elem_of_without k e es : e ∈ without k es ↔ ekey e ≠ k ∧ e ∈ es.
Proof. unfold without. by rewrite list_elem_of_filter. Qed.

End keyed_lists.

(** ** The two list operations keep the list well linked *)

Section surgery.
Implicit Types (s : LRUCache) (e : entry) (es : list entry) (a : addr).

Lemma split_around (hd tl a : addr) (l1 l2 : list addr) :
  ∃ p pa na q,
    hd :: (l1 ++ a :: l2) ++ [tl] = p ++ pa :: a :: na :: q ∧
    hd :: (l1 ++ l2) ++ [tl] = p ++ pa :: na :: q.
Proof.
  assert (∃ p pa, hd :: l1 = p ++ [pa]) as (p & pa & Hp).
  { destruct l1 as [|x l1] using rev_ind.
    - by exists [], hd.
    - by exists (hd :: l1), x. }
  assert (∃ na q, l2 ++ [tl] = na :: q) as (na & q & Hq).
  { destruct l2 as [|x l2]; simpl; eauto. }
  exists p, pa, na, q. split.
  - rewrite <-app_assoc, app_comm_cons, Hp. simpl. rewrite Hq.
    by rewrite <-app_assoc.
  - rewrite <-app_assoc, app_comm_cons, Hp, Hq. by rewrite <-app_assoc.
Qed.

Lemma unlink_length pa na h : length (unlink pa na h) = length h.
Proof. unfold unlink. by rewrite !length_alter. Qed.

Lemma push_length hd a n1 h : length (push hd a n1 h) = length h.
Proof. unfold push. by rewrite !length_alter. Qed.

Lemma unlink_key pa na h a : key <$> unlink pa na h !! a = key <$> h !! a.
Proof. unfold unlink. by rewrite !field_alter. Qed.

Lemma unlink_val pa na h a : val <$> unlink pa na h !! a = val <$> h !! a.
Proof. unfold unlink. by rewrite !field_alter. Qed.

Lemma push_key hd x n1 h a : key <$> push hd x n1 h !! a = key <$> h !! a.
Proof. unfold push. by rewrite !field_alter. Qed.

Lemma push_val hd x n1 h a : val <$> push hd x n1 h !! a = val <$> h !! a.
Proof. unfold push. by rewrite !field_alter. Qed.

Lemma path_lt s es a : Linked s es → a ∈ path s es → a < length (heap s).
Proof.
  intros [_ Hc _] Hin. eapply chain_lt; [|done|done].
  unfold path. simpl. rewrite length_app. simpl. lia.
Qed.

(** [_remove] of a node on the list. *)
Lemma detach s es1 e es2 :
  Linked s (es1 ++ e :: es2) →
  ∃ h', _remove (Some (eaddr e)) s = Return tt (with_heap h' s) 4 ∧
        length h' = length (heap s) ∧
        (∀ a, key <$> h' !! a = key <$> heap s !! a) ∧
        (∀ a, val <$> h' !! a = val <$> heap s !! a) ∧
        Linked (with_heap h' s) (es1 ++ es2).
Proof.
  intros [Hnd Hc Hn].
  destruct (split_around (head s) (tail s) (eaddr e) (eaddr <$> es1) (eaddr <$> es2))
    as (p & pa & na & q & Hfull & Hrest).
  unfold path in Hnd, Hc. rewrite fmap_app, fmap_cons, Hfull in Hnd, Hc.
  pose proof Hc as Hc0.
  apply chain_app in Hc0 as [_ Hc0].
  apply chain_cons in Hc0 as [Hpa Hc0]. apply chain_cons in Hc0 as [Hna _].
  destruct (link_lt _ _ _ Hpa) as [Hlt_pa _].
  destruct (link_lt _ _ _ Hna) as [_ Hlt_na].
  exists (unlink pa na (heap s)). split; [|split; [|split; [|split]]].
  - apply _remove_run; [apply Hpa|apply Hna|done|done].
  - apply unlink_length.
  - apply unlink_key.
  - apply unlink_val.
  - split; unfold path; cbn [with_heap heap head tail].
    + rewrite fmap_app, Hrest.
      apply NoDup_app in Hnd as (Hp & Hdisj & Hnd).
      apply NoDup_cons in Hnd as [Hpa_nin Hnd].
      apply NoDup_cons in Hnd as [_ Hnd].
      apply NoDup_app. split; [done|]. split.
      * intros x Hx Hx'. apply (Hdisj x Hx). set_solver.
      * apply NoDup_cons. split; [set_solver|done].
    + rewrite fmap_app, Hrest. by apply unlink_chain with (eaddr e).
    + intros e' He'. rewrite unlink_key, unlink_val. apply Hn. set_solver.
Qed.

(** [_add] of an allocated node that is not on the list. *)
Lemma attach s es a k v :
  Linked s es → a ∉ path s es →
  key <$> heap s !! a = Some k → val <$> heap s !! a = Some v →
  ∃ h', _add (Some a) s = Return tt (with_heap h' s) 8 ∧
        length h' = length (heap s) ∧
        (∀ a, key <$> h' !! a = key <$> heap s !! a) ∧
        (∀ a, val <$> h' !! a = val <$> heap s !! a) ∧
        Linked (with_heap h' s) (Entry a k v :: es).
Proof.
  intros [Hnd Hc Hn] Ha Hk Hv.
  assert (a < length (heap s)) as Hlt.
  { apply lookup_lt_is_Some. destruct (heap s !! a); [eauto|done]. }
  assert (∃ n1 q, (eaddr <$> es) ++ [tail s] = n1 :: q) as (n1 & q & Hq).
  { destruct es as [|x l2]; simpl; eauto. }
  unfold path in Hnd, Hc, Ha. rewrite Hq in Hnd, Hc, Ha.
  pose proof Hc as Hc0. apply chain_cons in Hc0 as [Hl _].
  destruct (link_lt _ _ _ Hl) as [_ Hlt_n1].
  exists (push (head s) a n1 (heap s)). split; [|split; [|split; [|split]]].
  - apply _add_run; [apply Hl|done|done].
  - apply push_length.
  - apply push_key.
  - apply push_val.
  - split; unfold path; cbn [with_heap heap head tail fmap list_fmap eaddr app];
      try rewrite Hq.
    + apply NoDup_cons in Hnd as [Hhd Hnd].
      apply NoDup_cons. split; [set_solver|]. apply NoDup_cons. split; [set_solver|done].
    + by apply push_chain.
    + intros e' He'. rewrite push_key, push_val.
      apply elem_of_cons in He' as [->|He']; [done|by apply Hn].
Qed.

(** [Node(k, v)] leaves the list alone and yields an address off it. *)
Lemma Linked_alloc s es n :
  Linked s es →
  Linked (with_heap (heap s ++ [n]) s) es ∧ length (heap s) ∉ path s es.
Proof.
  intros HL. split.
  - destruct HL as [Hnd Hc Hn].
    split; cbn [with_heap heap head tail]; [done|by apply chain_alloc|].
    intros e He. destruct (Hn e He) as [Hk Hv].
    assert (eaddr e < length (heap s)) as Hlt.
    { apply lookup_lt_is_Some. destruct (heap s !! eaddr e); [eauto|done]. }
    by rewrite lookup_app_l.
  - intros Hin. apply (path_lt _ _ _ HL) in Hin. lia.
Qed.

End surgery.

(** ** The dict against the list *)

Section index.
Implicit Types (s : LRUCache) (e : entry) (es : list entry) (a : addr) (k : Z).

Lemma Indexed_list_to_map s es :
  Indexed s es → cache s = list_to_map ((λ e, (ekey e, eaddr e)) <$> es).
Proof.
  intros [Hnd Hc]. apply map_eq. intros k. apply option_eq. intros a.
  rewrite Hc, <-elem_of_list_to_map.
  - rewrite list_elem_of_fmap. split.
    + intros [v Hv]. by exists (Entry a k v).
    + intros ([a' k' v] & [= -> ->] & He). by exists v.
  - by rewrite <-list_fmap_compose.
Qed.

(** I1: the dict has as many keys as the list has real nodes. *)
Lemma Indexed_size s es : Indexed s es → size (cache s) = length es.
Proof.
  intros HI. rewrite (Indexed_list_to_map _ _ HI).
  rewrite map_size_list_to_map, length_fmap; [done|].
  rewrite <-list_fmap_compose. apply HI.
Qed.

Lemma Indexed_lookup s es e : Indexed s es → e ∈ es → cache s !! ekey e = Some (eaddr e).
Proof. intros [_ Hc] He. apply Hc. exists (evalue e). by destruct e. Qed.

Lemma Indexed_None s es k : Indexed s es → cache s !! k = None ↔ k ∉ ekey <$> es.
Proof.
  intros HI. split.
  - intros Hc Hin. apply list_elem_of_fmap in Hin as (e & -> & He).
    by rewrite (Indexed_lookup _ _ _ HI He) in Hc.
  - intros Hnin. destruct (cache s !! k) as [a|] eqn:Hc; [|done].
    apply HI in Hc as [v Hv]. destruct Hnin.
    by apply (list_elem_of_fmap_2 ekey) in Hv.
Qed.

Lemma Indexed_unique s es e e' :
  Indexed s es → e ∈ es → e' ∈ es → ekey e = ekey e' → eaddr e = eaddr e'.
Proof.
  intros HI He He' Hk.
  pose proof (Indexed_lookup _ _ _ HI He) as H1.
  pose proof (Indexed_lookup _ _ _ HI He') as H2. congruence.
Qed.

(** Moving an entry to the front changes nothing for the dict. *)
Lemma Indexed_front s s' es1 e es2 :
  cache s' = cache s →
  Indexed s (es1 ++ e :: es2) → Indexed s' (e :: es1 ++ es2).
Proof.
  intros Hc [Hnd Hi].
  assert (e :: es1 ++ es2 ≡ₚ es1 ++ e :: es2) as Hp by apply Permutation_middle.
  split.
  - by rewrite Hp.
  - intros k a. rewrite Hc, Hi. by setoid_rewrite Hp.
Qed.

(** [self.cache[k] = a] for a node that goes to the front. *)
Lemma Indexed_insert s es k a v :
  NoDup (ekey <$> es) →
  (∀ k' a', k' ≠ k → cache s !! k' = Some a' ↔ ∃ v', Entry a' k' v' ∈ without k es) →
  Indexed (with_cache (<[k := a]> (cache s)) s) (Entry a k v :: without k es).
Proof.
  intros Hnd Hc. split.
  - rewrite fmap_cons. apply NoDup_cons. split; [apply without_keys|by apply without_NoDup].
  - intros k' a'. cbn [with_cache cache]. destruct (decide (k = k')) as [<-|Hne].
    + rewrite lookup_insert_eq. split.
      * intros [= <-]. exists v. left.
      * intros [v' Hv']. apply elem_of_cons in Hv' as [[= -> _]|Hv']; [done|].
        apply elem_of_without in Hv' as [Hne _]. by destruct Hne.
    + rewrite lookup_insert_ne by done. rewrite Hc by done. split.
      * intros [v' Hv']. exists v'. by right.
      * intros [v' Hv']. apply elem_of_cons in Hv' as [[= _ -> _]|Hv']; [done|eauto].
Qed.

(** [del self.cache[lru.key]] for the node at the back. *)
Lemma Indexed_delete_last s es e :
  Indexed s (es ++ [e]) → Indexed (with_cache (delete (ekey e) (cache s)) s) es.
Proof.
  intros [Hnd Hc]. rewrite fmap_app in Hnd.
  apply NoDup_app in Hnd as (Hnd & Hdisj & _). split; [done|].
  intros k a. cbn [with_cache cache]. destruct (decide (ekey e = k)) as [<-|Hne].
  - rewrite lookup_delete_eq. split; [done|]. intros [v Hv].
    destruct (Hdisj (ekey e)); [|set_solver].
    by apply (list_elem_of_fmap_2 ekey) in Hv.
  - rewrite lookup_delete_ne by done. rewrite Hc. split.
    + intros [v Hv]. exists v. apply elem_of_app in Hv as [Hv|Hv]; [done|].
      apply list_elem_of_singleton in Hv. subst e. by destruct Hne.
    + intros [v Hv]. exists v. apply elem_of_app. by left.
Qed.

End index.

(** ** What one call does to the list *)

Section specs.
Implicit Types (s : LRUCache) (e : entry) (es : list entry) (a : addr) (k v : Z).

Lemma bind_Return {A B} (m : M A) (f : A → M B) s x s1 c1 :
  m s = Return x s1 c1 →
  bind m f s =
    match f x s1 with
    | Return b s2 c2 => Return b s2 (c1 + c2)
    | Raise e => Raise e
    end.
Proof. intros H. unfold bind. by rewrite H. Qed.

Lemma Linked_ext s s' es :
  head s' = head s → tail s' = tail s → heap s' = heap s →
  Linked s es → Linked s' es.
Proof.
  intros Hh Ht Hp [Hnd Hc Hn]. split; unfold path in *; rewrite ?Hh, ?Ht, ?Hp; done.
Qed.

Lemma Indexed_ext s s' es : cache s' = cache s → Indexed s es → Indexed s' es.
Proof. intros Hc [Hnd Hi]. split; [done|]. intros k a. by rewrite Hc. Qed.

Lemma NoDup_middle_notin (hd tl a : addr) (l1 l2 : list addr) :
  NoDup (hd :: (l1 ++ a :: l2) ++ [tl]) → a ∉ hd :: (l1 ++ l2) ++ [tl].
Proof.
  intros Hnd.
  assert (hd :: (l1 ++ a :: l2) ++ [tl] ≡ₚ a :: hd :: (l1 ++ l2) ++ [tl]) as Hp.
  { rewrite <-!app_assoc, <-app_comm_cons. symmetry.
    apply (Permutation_middle (hd :: l1) (l2 ++ [tl]) a). }
  rewrite Hp in Hnd. by apply NoDup_cons in Hnd as [? _].
Qed.

(** The node before the tail dummy is the last entry of the list. *)
Lemma tail_prev s es e :
  Linked s (es ++ [e]) → prev_at (heap s) (tail s) = Some (Some (eaddr e)).
Proof.
  intros [_ Hc _]. unfold path in Hc. rewrite fmap_app in Hc.
  change (eaddr <$> [e]) with [eaddr e] in Hc.
  rewrite <-app_assoc in Hc.
  apply (chain_app _ (head s :: (eaddr <$> es))) in Hc as [_ Hc].
  apply chain_cons in Hc as [[_ Hp] _]. done.
Qed.

Lemma tail_prev_nil s : Linked s [] → prev_at (heap s) (tail s) = Some (Some (head s)).
Proof. intros [_ Hc _]. unfold path in Hc. simpl in Hc. apply Hc. Qed.

Lemma head_next_nil s : Linked s [] → next_at (heap s) (head s) = Some (Some (tail s)).
Proof. intros [_ Hc _]. unfold path in Hc. simpl in Hc. apply Hc. Qed.

(** A miss touches nothing. *)
Lemma get_miss s k : cache s !! k = None → get k s = Return (-1)%Z s 1.
Proof.
  intros Hc. unfold get. rewrite (bind_Return _ _ s false s 1); [done|].
  unfold contains. rewrite Hc. rewrite bool_decide_false; [done|].
  by intros [? ?].
Qed.

(** A hit moves the node to the front and returns its value. *)
Lemma get_hit s es1 e es2 :
  Inv s (es1 ++ e :: es2) →
  ∃ h', get (ekey e) s = Return (evalue e) (with_heap h' s) 15 ∧
        length h' = length (heap s) ∧
        Inv (with_heap h' s) (e :: es1 ++ es2).
Proof.
  intros [HL HI Hb].
  assert (e ∈ es1 ++ e :: es2) as Hin by set_solver.
  pose proof (Indexed_lookup _ _ _ HI Hin) as Hc.
  destruct (linked_nodes _ _ HL e Hin) as [Hke Hve].
  destruct (detach _ _ _ _ HL) as (h1 & Hrun1 & Hlen1 & Hk1 & Hv1 & HL1).
  destruct (attach (with_heap h1 s) (es1 ++ es2) (eaddr e) (ekey e) (evalue e) HL1)
    as (h2 & Hrun2 & Hlen2 & Hk2 & Hv2 & HL2).
  { pose proof (linked_nodup _ _ HL) as Hnd. unfold path in *.
    rewrite fmap_app, fmap_cons in Hnd. rewrite fmap_app.
    by apply NoDup_middle_notin. }
  { cbn [with_heap heap]. by rewrite Hk1. }
  { cbn [with_heap heap]. by rewrite Hv1. }
  exists h2. split; [|split].
  - unfold get. rewrite (bind_Return _ _ s true s 1).
    2:{ unfold contains. rewrite Hc. by rewrite bool_decide_true by eauto. }
    rewrite (bind_Return _ _ s (eaddr e) s 1).
    2:{ unfold getitem. by rewrite Hc. }
    rewrite (bind_Return _ _ _ _ _ _ Hrun1).
    rewrite (bind_Return _ _ _ _ _ _ Hrun2).
    rewrite (load_run val _ _ (evalue e)); [done|].
    cbn [with_heap heap] in *. by rewrite Hv2, Hv1.
  - cbn [with_heap heap] in *. congruence.
  - split.
    + destruct e. eapply Linked_ext; [..|exact HL2]; done.
    + by apply (Indexed_front s).
    + cbn [with_heap capacity]. rewrite length_app in Hb.
      rewrite length_cons, length_app. simpl in Hb. lia.
Qed.

Lemma put_unfold k v :
  put k v =
    (found ← contains k;
     (if found then old ← getitem k; _remove (Some old) else ret tt);;
     put_tail k v).
Proof. reflexivity. Qed.

(** The eviction branch drops the last entry of the list. *)
Lemma evict_spec s es e :
  Linked s (es ++ [e]) → Indexed s (es ++ [e]) →
  ∃ h', evict s =
          Return tt (with_heap h' (with_cache (delete (ekey e) (cache s)) s)) 8 ∧
        length h' = length (heap s) ∧
        Linked (with_heap h' (with_cache (delete (ekey e) (cache s)) s)) es ∧
        Indexed (with_heap h' (with_cache (delete (ekey e) (cache s)) s)) es.
Proof.
  intros HL HI.
  assert (e ∈ es ++ [e]) as Hin by set_solver.
  pose proof (tail_prev _ _ _ HL) as Hp.
  pose proof (Indexed_lookup _ _ _ HI Hin) as Hc.
  destruct (linked_nodes _ _ HL e Hin) as [Hke _].
  destruct (detach _ _ _ _ HL) as (h1 & Hrun1 & Hlen1 & Hk1 & _ & HL1).
  rewrite app_nil_r in HL1.
  exists h1. split; [|split; [|split]].
  - unfold evict. rewrite (bind_Return _ _ s (Some (tail s)) s 1) by done.
    rewrite (bind_Return _ _ s (Some (eaddr e)) s 1) by (by apply load_run).
    rewrite (bind_Return _ _ _ _ _ _ Hrun1).
    rewrite (bind_Return _ _ (with_heap h1 s) (ekey e) (with_heap h1 s) 1).
    2:{ apply load_run. cbn [with_heap heap]. by rewrite Hk1. }
    unfold delitem. cbn [with_heap cache]. by rewrite Hc.
  - done.
  - eapply Linked_ext; [..|exact HL1]; done.
  - eapply Indexed_ext; [|by apply Indexed_delete_last]. done.
Qed.

(** [put] from the allocation on, for a list that no longer holds [k]. *)
Lemma put_tail_spec s es k v :
  Linked s (without k es) → NoDup (ekey <$> es) →
  (∀ k' a', k' ≠ k → cache s !! k' = Some a' ↔ ∃ v', Entry a' k' v' ∈ without k es) →
  (Z.of_nat (length (without k es)) ≤ Z.max 0 (capacity s))%Z →
  ∃ s' c, put_tail k v s = Return tt s' c ∧ c ≤ 20 ∧
          capacity s' = capacity s ∧ head s' = head s ∧ tail s' = tail s ∧
          length (heap s') = S (length (heap s)) ∧
          Inv s' (model_put (capacity s) (length (heap s)) k v es) ∧
          cache s' =
            match model_victim (capacity s) (length (heap s)) k v es with
            | Some e => delete (ekey e) (<[k := length (heap s)]> (cache s))
            | None => <[k := length (heap s)]> (cache s)
            end.
Proof.
  intros HL Hnd Hc Hb.
  set (a := length (heap s)). set (n := mkNode k v None None).
  set (s1 := with_heap (heap s ++ [n]) s).
  destruct (Linked_alloc s _ n HL) as [HL1 Hfresh]. fold s1 in HL1.
  destruct (attach s1 (without k es) a k v HL1) as (h2 & Hrun2 & Hlen2 & _ & _ & HL2).
  { done. }
  { unfold s1, a. cbn [with_heap heap]. by rewrite list_lookup_middle. }
  { unfold s1, a. cbn [with_heap heap]. by rewrite list_lookup_middle. }
  set (s3 := with_cache (<[k := a]> (cache s)) (with_heap h2 s1)).
  set (es' := Entry a k v :: without k es).
  assert (Linked s3 es') as HL3 by (eapply Linked_ext; [..|exact HL2]; done).
  assert (Indexed s3 es') as HI3.
  { eapply Indexed_ext; [|by apply (Indexed_insert s es k a v)]. done. }
  assert (length (heap s3) = S (length (heap s))) as Hlen3.
  { unfold s3. cbn [with_cache with_heap heap]. rewrite Hlen2. unfold s1.
    cbn [with_heap heap]. rewrite length_app. simpl. lia. }
  assert (put_tail k v s =
          match (if (Z.of_nat (length es') >? capacity s)%Z then evict else ret tt) s3 with
          | Return b s2 c2 => Return b s2 (12 + c2)
          | Raise e => Raise e
          end) as Hrun.
  { unfold put_tail. rewrite (bind_Return _ _ s a s1 1) by done.
    rewrite (bind_Return _ _ _ _ _ _ Hrun2).
    rewrite (bind_Return _ _ (with_heap h2 s1) tt s3 1) by done.
    rewrite (bind_Return _ _ s3 (Z.of_nat (length es')) s3 1).
    2:{ unfold len. by rewrite (Indexed_size _ _ HI3). }
    rewrite (bind_Return _ _ s3 (capacity s) s3 1) by done.
    by destruct ((if (Z.of_nat (length es') >? capacity s)%Z then evict else ret tt) s3). }
  unfold model_put, model_victim. fold a. cbv zeta. fold es'.
  destruct (Z.of_nat (length es') >? capacity s)%Z eqn:Hgt.
  - destruct (cons_snoc (Entry a k v) (without k es)) as (l & e & Hes').
    fold es' in Hes'.
    rewrite Hes' in HL3, HI3. rewrite Hes', removelast_last, last_snoc.
    destruct (evict_spec _ _ _ HL3 HI3) as (h4 & Hrun4 & Hlen4 & HL4 & HI4).
    rewrite Hrun4 in Hrun. eexists _, _. split; [exact Hrun|].
    split; [lia|]. split; [done|]. split; [done|]. split; [done|].
    split; [cbn [with_heap heap]; by rewrite Hlen4, Hlen3|].
    split; [|done].
    split; [done|done|]. cbn [with_heap with_cache capacity].
    assert (length es' = S (length (without k es))) as Hl1 by done.
    rewrite Hes', length_app in Hl1. simpl in Hl1.
    unfold s3, s1. cbn [with_heap with_cache capacity]. lia.
  - eexists _, _. split; [exact Hrun|].
    split; [simpl; lia|]. split; [done|]. split; [done|]. split; [done|].
    split; [done|]. split; [|done]. split; [done|done|].
    unfold s3, s1. cbn [with_heap with_cache capacity]. lia.
Qed.

(** [put] in full. *)
Lemma put_spec s es k v :
  Inv s es →
  ∃ s' c, put k v s = Return tt s' c ∧ c ≤ 26 ∧
          capacity s' = capacity s ∧ head s' = head s ∧ tail s' = tail s ∧
          length (heap s') = S (length (heap s)) ∧
          Inv s' (model_put (capacity s) (length (heap s)) k v es) ∧
          cache s' =
            match model_victim (capacity s) (length (heap s)) k v es with
            | Some e => delete (ekey e) (<[k := length (heap s)]> (cache s))
            | None => <[k := length (heap s)]> (cache s)
            end.
Proof.
  intros [HL HI Hb]. rewrite put_unfold.
  destruct (cache s !! k) as [a|] eqn:Hc.
  - apply HI in Hc as Hin. destruct Hin as [v0 Hin].
    apply list_elem_of_split in Hin as (es1 & es2 & ->).
    destruct (detach _ _ _ _ HL) as (h1 & Hrun1 & Hlen1 & Hk1 & Hv1 & HL1).
    cbn [eaddr] in Hrun1.
    assert (without k (es1 ++ Entry a k v0 :: es2) = es1 ++ es2) as Hw.
    { apply without_split; [apply HI|done]. }
    destruct (put_tail_spec (with_heap h1 s) (es1 ++ Entry a k v0 :: es2) k v)
      as (s' & c & Hrun & Hc' & Hcap & Hhd & Htl & Hlen & HInv & Hcache).
    { by rewrite Hw. }
    { apply HI. }
    { intros k' a' Hne. cbn [with_heap cache]. rewrite (indexed_cache _ _ HI).
      unfold ekey. setoid_rewrite elem_of_without. naive_solver. }
    { rewrite Hw. cbn [with_heap capacity]. rewrite length_app in *. simpl in Hb. lia. }
    exists s', (1 + (5 + c)). cbn [with_heap heap capacity head tail] in *.
    rewrite Hlen1 in *. split; [|split; [lia|done]].
    rewrite (bind_Return _ _ s true s 1).
    2:{ unfold contains. rewrite Hc. by rewrite bool_decide_true by eauto. }
    erewrite (bind_Return _ _ s tt (with_heap h1 s) 5).
    2:{ rewrite (bind_Return _ _ s a s 1); [by rewrite Hrun1|].
        unfold getitem. by rewrite Hc. }
    by rewrite Hrun.
  - pose proof (proj1 (Indexed_None _ _ k HI) Hc) as Hnin.
    pose proof (without_notin _ _ Hnin) as Hw.
    destruct (put_tail_spec s es k v) as (s' & c & Hrun & Hc' & Hrest).
    { by rewrite Hw. }
    { apply HI. }
    { intros k' a' Hne. rewrite Hw. apply HI. }
    { by rewrite Hw. }
    exists s', (1 + (0 + c)). split; [|split; [lia|done]].
    rewrite (bind_Return _ _ s false s 1).
    2:{ unfold contains. rewrite Hc. rewrite bool_decide_false; [done|]. by intros [? ?]. }
    rewrite (bind_Return _ _ s tt s 0) by done.
    by rewrite Hrun.
Qed.

Lemma filter_key_nil k es : k ∉ ekey <$> es → filter (λ e, ekey e = k) es = [].
Proof.
  induction es as [|e es IH]; [done|]. rewrite fmap_cons.
  intros [Hne Hk]%not_elem_of_cons.
  rewrite filter_cons_False by (intros Heq; by apply Hne). by apply IH.
Qed.

Lemma filter_key_split es1 e es2 :
  NoDup (ekey <$> es1 ++ e :: es2) →
  filter (λ e', ekey e' = ekey e) (es1 ++ e :: es2) = [e].
Proof.
  intros Hnd. rewrite fmap_app, fmap_cons in Hnd.
  apply NoDup_app in Hnd as (_ & Hdisj & Hnd).
  apply NoDup_cons in Hnd as [Hnin _].
  rewrite filter_app, filter_cons_True by done.
  rewrite !filter_key_nil; [done|done|].
  intros Hin. apply (Hdisj _ Hin). left.
Qed.

(** [get] against the model, hit or miss. *)
Lemma get_spec s es k :
  Inv s es →
  ∃ s' c, get k s = Return (model_result k es) s' c ∧ c ≤ 15 ∧
          capacity s' = capacity s ∧ head s' = head s ∧ tail s' = tail s ∧
          length (heap s') = length (heap s) ∧ cache s' = cache s ∧
          Inv s' (model_get k es).
Proof.
  intros HInv. pose proof (inv_indexed _ _ HInv) as HI.
  destruct (cache s !! k) as [a|] eqn:Hc.
  - apply HI in Hc as Hin. destruct Hin as [v0 Hin].
    apply list_elem_of_split in Hin as (es1 & es2 & ->).
    destruct (get_hit _ _ _ _ HInv) as (h' & Hrun & Hlen & HInv').
    cbn [ekey evalue] in Hrun.
    pose proof (filter_key_split es1 (Entry a k v0) es2 (indexed_keys _ _ HI)) as Hf.
    cbn [ekey] in Hf. unfold model_result, model_get. rewrite Hf.
    rewrite without_split; [|apply HI|done].
    exists (with_heap h' s), 15. cbn [evalue]. split_and!; done.
  - pose proof (proj1 (Indexed_None _ _ k HI) Hc) as Hnin.
    unfold model_result, model_get. rewrite (filter_key_nil _ _ Hnin).
    exists s, 1. rewrite (get_miss _ _ Hc). split_and!; [done|lia|done..].
Qed.

(** The constructor. *)
Lemma __init___run cap :
  __init__ cap =
    Return tt (mkLRUCache cap ∅ 0 1
                 [mkNode 0 0 None (Some 1); mkNode 0 0 (Some 0) None]) 8.
Proof. reflexivity. Qed.

Lemma __init___Inv cap :
  Inv (mkLRUCache cap ∅ 0 1 [mkNode 0 0 None (Some 1); mkNode 0 0 (Some 0) None]) [].
Proof.
  split.
  - split.
    + unfold path. simpl. apply NoDup_cons. split; [set_solver|]. apply NoDup_singleton.
    + unfold path. simpl. done.
    + intros e He. by apply elem_of_nil in He.
  - split; [constructor|]. intros k a. simpl. rewrite lookup_empty. split; [done|].
    intros [v Hv]. by apply elem_of_nil in Hv.
  - simpl. lia.
Qed.

(** One call, then any number of calls, against the model. *)
Lemma call_spec s es op :
  Inv s es →
  ∃ r s' c, call op s = Return r s' c ∧
    capacity s' = capacity s ∧ head s' = head s ∧ tail s' = tail s ∧
    length (heap s') = (model_call (capacity s) (length (heap s), es) op).1 ∧
    Inv s' (model_call (capacity s) (length (heap s), es) op).2.
Proof.
  intros HInv. destruct op as [k|k v]; unfold call.
  - destruct (get_spec _ _ k HInv) as (s' & c & Hrun & _ & ? & ? & ? & ? & _ & ?).
    rewrite (bind_Return _ _ _ _ _ _ Hrun). eexists _, s', _. split_and!; done.
  - destruct (put_spec _ _ k v HInv) as (s' & c & Hrun & _ & ? & ? & ? & ? & ? & _).
    rewrite (bind_Return _ _ _ _ _ _ Hrun). eexists _, s', _. split_and!; done.
Qed.

Lemma calls_spec ops s es :
  Inv s es →
  ∃ s' c, calls ops s = Return tt s' c ∧
    capacity s' = capacity s ∧ head s' = head s ∧ tail s' = tail s ∧
    length (heap s') = (model_calls (capacity s) ops (length (heap s), es)).1 ∧
    Inv s' (model_calls (capacity s) ops (length (heap s), es)).2.
Proof.
  revert s es. induction ops as [|op ops IH]; intros s es HInv.
  - exists s, 0. split_and!; done.
  - destruct (call_spec _ _ op HInv) as (r & s1 & c1 & Hrun1 & Hcap1 & Hh1 & Ht1 & Hlen1 & HInv1).
    destruct (IH _ _ HInv1) as (s2 & c2 & Hrun2 & Hcap2 & Hh2 & Ht2 & Hlen2 & HInv2).
    exists s2, (c1 + c2). split.
    { cbn [calls]. rewrite (bind_Return _ _ _ _ _ _ Hrun1). by rewrite Hrun2. }
    unfold model_calls in *. cbn [foldl].
    rewrite Hcap1, Hlen1 in Hlen2, HInv2. rewrite <-surjective_pairing in Hlen2, HInv2.
    split_and!; try congruence; done.
Qed.

(** A session: the constructor, then the calls. *)
Lemma session_spec cap ops :
  ∃ s c, session cap ops = Return tt s c ∧
    capacity s = cap ∧ head s = 0 ∧ tail s = 1 ∧
    length (heap s) = (model_calls cap ops (2, [])).1 ∧
    Inv s (model_calls cap ops (2, [])).2.
Proof.
  destruct (calls_spec ops _ _ (__init___Inv cap))
    as (s & c & Hrun & Hcap & Hh & Ht & Hlen & HInv).
  exists s, (8 + c). unfold session. rewrite __init___run. cbn [continue].
  rewrite Hrun. split_and!; done.
Qed.

(** Walking [next] from the head dummy yields the recency list (I1, I4). *)
Lemma walk_chain h stop l a0 fuel :
  chain h (a0 :: l ++ [stop]) → stop ∉ l → length l ≤ fuel →
  walk fuel h stop (default None (next_at h a0)) = l.
Proof.
  revert a0 fuel. induction l as [|a l IH]; intros a0 fuel Hc Hstop Hlen.
  - simpl in Hc. destruct Hc as [[-> _] _]. simpl.
    destruct fuel; [done|]. simpl. by rewrite decide_True.
  - change ((a :: l) ++ [stop]) with (a :: (l ++ [stop])) in Hc.
    apply chain_cons in Hc as [[Hn _] Hc]. rewrite Hn. simpl.
    apply not_elem_of_cons in Hstop as [Hne Hstop].
    destruct fuel as [|fuel]; [simpl in Hlen; lia|]. simpl.
    rewrite decide_False by done. f_equal. apply IH; [done|done|simpl in Hlen; lia].
Qed.

Lemma order_Linked s es : Linked s es → order s = eaddr <$> es.
Proof.
  intros HL. unfold order. apply walk_chain.
  - apply HL.
  - pose proof (linked_nodup _ _ HL) as Hnd. unfold path in Hnd.
    apply NoDup_cons in Hnd as [_ Hnd].
    apply NoDup_app in Hnd as (_ & Hdisj & _).
    intros Hin. apply (Hdisj _ Hin). left.
  - assert (eaddr <$> es ⊆+ seq 0 (length (heap s))) as Hsub.
    { apply NoDup_submseteq.
      - pose proof (linked_nodup _ _ HL) as Hnd. unfold path in Hnd.
        apply NoDup_cons in Hnd as [_ Hnd]. by apply NoDup_app in Hnd as (? & _ & _).
      - intros a Ha. apply elem_of_seq. split; [lia|]. simpl.
        apply (path_lt s es); [done|]. unfold path. set_solver. }
    apply submseteq_length in Hsub. by rewrite length_seq in Hsub.
Qed.

End specs.

(** ** The history of calls *)

Section history.
Implicit Types (e : entry) (es : list entry) (k v : Z) (ops : list Op).

Lemma last_put_app k ops1 ops2 :
  last_put k (ops1 ++ ops2) =
    match last_put k ops2 with Some v => Some v | None => last_put k ops1 end.
Proof.
  induction ops1 as [|op ops1 IH]; simpl.
  - by destruct (last_put k ops2).
  - rewrite IH. by destruct (last_put k ops2).
Qed.

Lemma elem_of_removelast e es : e ∈ removelast es → e ∈ es.
Proof.
  induction es as [|x es IH]; [done|]. simpl. destruct es as [|y es].
  - intros H. by apply elem_of_nil in H.
  - intros [->|H]%elem_of_cons; [left|right; by apply IH].
Qed.

Lemma elem_of_model_get k e es : e ∈ model_get k es → e ∈ es.
Proof.
  unfold model_get. destruct (filter _ es) as [|e0 l] eqn:Hf; [done|].
  intros [->|H]%elem_of_cons.
  - assert (e0 ∈ filter (λ e, ekey e = k) es) as Hin by (rewrite Hf; left).
    by apply list_elem_of_filter in Hin as [_ ?].
  - by apply elem_of_without in H as [_ ?].
Qed.

Lemma elem_of_model_put cap a k v e es :
  e ∈ model_put cap a k v es → e = Entry a k v ∨ (ekey e ≠ k ∧ e ∈ es).
Proof.
  unfold model_put. cbv zeta. intros H.
  assert (e ∈ Entry a k v :: without k es) as [->|Hin]%elem_of_cons.
  { destruct (_ >? _)%Z; [by apply elem_of_removelast|done]. }
  - by left.
  - right. by apply elem_of_without.
Qed.

Lemma Hist_call cap n op past es :
  Hist past es → Hist (past ++ [op]) (model_call cap (n, es) op).2.
Proof.
  intros HH e He. rewrite last_put_app. destruct op as [k|k v]; simpl in *.
  - apply HH. by apply elem_of_model_get in He.
  - apply elem_of_model_put in He as [->|[Hne He]]; simpl.
    + by rewrite decide_True.
    + rewrite decide_False by done. by apply HH.
Qed.

Lemma Hist_calls cap ops n past es :
  Hist past es → Hist (past ++ ops) (model_calls cap ops (n, es)).2.
Proof.
  revert n past es. induction ops as [|op ops IH]; intros n past es HH.
  - by rewrite app_nil_r.
  - unfold model_calls. cbn [foldl].
    destruct (model_call cap (n, es) op) as [n' es'] eqn:Hstep.
    replace (past ++ op :: ops) with ((past ++ [op]) ++ ops) by by rewrite <-app_assoc.
    apply IH. pose proof (Hist_call cap n op past es HH) as H'. by rewrite Hstep in H'.
Qed.

Lemma Hist_session cap ops : Hist ops (model_calls cap ops (2, [])).2.
Proof.
  apply (Hist_calls cap ops 2 [] []). intros e He. by apply elem_of_nil in He.
Qed.

End history.

(** ** Step counts *)

Section steps.

Lemma steps_le_ret {A} (x : A) : steps_le 0 (ret x).
Proof. intros s. done. Qed.

Lemma steps_le_bind {A B} n1 n2 (m : M A) (f : A → M B) :
  steps_le n1 m → (∀ x, steps_le n2 (f x)) → steps_le (n1 + n2) (bind m f).
Proof.
  intros H1 H2 s. unfold bind, continue. specialize (H1 s).
  destruct (m s) as [x s1 c1|]; simpl in *; [|lia].
  specialize (H2 x s1). destruct (f x s1); simpl in *; lia.
Qed.

Lemma steps_le_weaken {A} n n' (m : M A) : steps_le n m → n ≤ n' → steps_le n' m.
Proof. intros H Hle s. specialize (H s). lia. Qed.

Lemma steps_le_if {A} n (b : bool) (m1 m2 : M A) :
  steps_le n m1 → steps_le n m2 → steps_le n (if b then m1 else m2).
Proof. by destruct b. Qed.

Local Ltac one_step :=
  intros ?;
  unfold self_head, self_tail, self_capacity, new_node, contains, setitem, len;
  cbn [steps_of]; lia.

Lemma steps_le_load {A} (f : Node → A) r : steps_le 1 (load f r).
Proof. intros s. unfold load. destruct r; [destruct (heap s !! _)|]; simpl; lia. Qed.

Lemma steps_le_store upd r : steps_le 1 (store upd r).
Proof. intros s. unfold store. destruct r; [destruct (heap s !! _)|]; simpl; lia. Qed.

Lemma steps_le_getitem k : steps_le 1 (getitem k).
Proof. intros s. unfold getitem. destruct (cache s !! k); simpl; lia. Qed.

Lemma steps_le_delitem k : steps_le 1 (delitem k).
Proof. intros s. unfold delitem. destruct (cache s !! k); simpl; lia. Qed.

Lemma steps_le__remove r : steps_le 4 (_remove r).
Proof.
  unfold _remove.
  apply (steps_le_bind 1 3); [apply steps_le_load|intros ?].
  apply (steps_le_bind 1 2); [apply steps_le_load|intros ?].
  apply (steps_le_bind 1 1); [apply steps_le_store|intros ?].
  apply steps_le_store.
Qed.

Lemma steps_le__add r : steps_le 8 (_add r).
Proof.
  unfold _add.
  apply (steps_le_bind 1 7); [one_step|intros ?].
  apply (steps_le_bind 1 6); [apply steps_le_load|intros ?].
  apply (steps_le_bind 1 5); [one_step|intros ?].
  apply (steps_le_bind 1 4); [apply steps_le_store|intros ?].
  apply (steps_le_bind 1 3); [one_step|intros ?].
  apply (steps_le_bind 1 2); [apply steps_le_store|intros ?].
  apply (steps_le_bind 1 1); [apply steps_le_store|intros ?].
  apply steps_le_store.
Qed.

Lemma steps_le_get k : steps_le 15 (get k).
Proof.
  unfold get. apply (steps_le_bind 1 14); [one_step|intros found].
  apply steps_le_if; [|apply (steps_le_weaken 0); [apply steps_le_ret|lia]].
  apply (steps_le_bind 1 13); [apply steps_le_getitem|intros ?].
  apply (steps_le_bind 4 9); [apply steps_le__remove|intros ?].
  apply (steps_le_bind 8 1); [apply steps_le__add|intros ?].
  apply steps_le_load.
Qed.

Lemma steps_le_put k v : steps_le 26 (put k v).
Proof.
  unfold put. apply (steps_le_bind 1 25); [one_step|intros found].
  apply (steps_le_bind 5 20).
  { apply steps_le_if; [|apply (steps_le_weaken 0); [apply steps_le_ret|lia]].
    apply (steps_le_bind 1 4); [apply steps_le_getitem|intros ?].
    apply steps_le__remove. }
  intros _.
  apply (steps_le_bind 1 19); [one_step|intros node].
  apply (steps_le_bind 8 11); [apply steps_le__add|intros ?].
  apply (steps_le_bind 1 10); [one_step|intros ?].
  apply (steps_le_bind 1 9); [one_step|intros n].
  apply (steps_le_bind 1 8); [one_step|intros cap].
  apply steps_le_if; [|apply (steps_le_weaken 0); [apply steps_le_ret|lia]].
  apply (steps_le_bind 1 7); [one_step|intros ?].
  apply (steps_le_bind 1 6); [apply steps_le_load|intros ?].
  apply (steps_le_bind 4 2); [apply steps_le__remove|intros ?].
  apply (steps_le_bind 1 1); [apply steps_le_load|intros ?].
  apply steps_le_delitem.
Qed.

End steps.

(** ** Recency *)

Section recency.
Implicit Types (e x y : entry) (es : list entry) (k : Z) (u : list Z).

Lemma more_recent_snoc u k' k k0 :
  more_recent u k' k → k ≠ k0 → more_recent (u ++ [k0]) k' k.
Proof.
  intros (u1 & u2 & -> & Hk) Hne. exists u1, (u2 ++ [k0]). split.
  - by rewrite <-app_assoc.
  - rewrite app_comm_cons, elem_of_app, list_elem_of_singleton. tauto.
Qed.

Lemma more_recent_last u k' k : k ≠ k' → more_recent (u ++ [k']) k' k.
Proof.
  intros Hne. exists u, []. split; [done|]. by rewrite list_elem_of_singleton.
Qed.

Lemma Recent_nil u : Recent u [].
Proof. intros x y H. by apply sublist_nil_r in H. Qed.

Lemma Recent_sublist u es es' : Recent u es → es' `sublist_of` es → Recent u es'.
Proof. intros HR Hsub x y Hxy. apply HR. by etrans. Qed.

(** Using [k] puts its entry in front of the others. *)
Lemma Recent_touch u es e rest k :
  Recent u es → rest `sublist_of` es → (∀ y, y ∈ rest → ekey y ≠ k) → ekey e = k →
  Recent (u ++ [k]) (e :: rest).
Proof.
  intros HR Hsub Hne Hk x y Hxy.
  apply sublist_cons_r in Hxy as [Hxy|(l' & [= -> <-] & Hy)].
  - apply more_recent_snoc.
    + apply HR. by etrans.
    + apply Hne. eapply elem_of_sublist; [|done]. set_solver.
  - rewrite Hk. apply more_recent_last. apply Hne. by apply singleton_sublist_l.
Qed.

Lemma removelast_sublist es : removelast es `sublist_of` es.
Proof.
  destruct es as [|e es]; [done|].
  destruct (cons_snoc e es) as (es' & e' & ->).
  rewrite removelast_last. by apply sublist_inserts_r.
Qed.

Lemma Recent_model_put u cap a k v es :
  Recent u es → Recent (u ++ [k]) (model_put cap a k v es).
Proof.
  intros HR. unfold model_put. cbv zeta.
  assert (Recent (u ++ [k]) (Entry a k v :: without k es)) as HR'.
  { apply (Recent_touch u es); [done|apply sublist_filter| |done].
    intros y Hy. by apply elem_of_without in Hy as [? _]. }
  destruct (_ >? _)%Z; [|done].
  eapply Recent_sublist; [exact HR'|apply removelast_sublist].
Qed.

Lemma Recent_model_get u k es :
  Recent u es →
  Recent (u ++ match filter (λ e, ekey e = k) es with [] => [] | _ :: _ => [k] end)
         (model_get k es).
Proof.
  intros HR. unfold model_get.
  destruct (filter (λ e, ekey e = k) es) as [|e l] eqn:Hf; [by rewrite app_nil_r|].
  assert (e ∈ filter (λ e, ekey e = k) es) as He by (rewrite Hf; left).
  apply list_elem_of_filter in He as [Hk _].
  apply (Recent_touch u es); [done|apply sublist_filter| |done].
  intros y Hy. by apply elem_of_without in Hy as [? _].
Qed.

Lemma used_get s es k :
  Inv s es →
  used (Get k) s = match filter (λ e, ekey e = k) es with [] => [] | _ :: _ => [k] end.
Proof.
  intros HInv. pose proof (inv_indexed _ _ HInv) as HI. unfold used.
  destruct (cache s !! k) as [a|] eqn:Hc.
  - rewrite bool_decide_true by eauto.
    apply HI in Hc as [v Hv]. apply list_elem_of_split in Hv as (es1 & es2 & ->).
    pose proof (filter_key_split es1 (Entry a k v) es2 (indexed_keys _ _ HI)) as Hf.
    cbn [ekey] in Hf. by rewrite Hf.
  - rewrite bool_decide_false by (by intros [? ?]).
    by rewrite filter_key_nil by (by apply (Indexed_None s)).
Qed.

Lemma Recent_call s es u op :
  Inv s es → Recent u es →
  Recent (u ++ used op s) (model_call (capacity s) (length (heap s), es) op).2.
Proof.
  intros HInv HR. destruct op as [k|k v]; cbn [model_call fst snd].
  - rewrite (used_get _ _ _ HInv). by apply Recent_model_get.
  - by apply Recent_model_put.
Qed.

Lemma calls_Recent ops s es u :
  Inv s es → Recent u es →
  ∃ s' c es', calls ops s = Return tt s' c ∧ capacity s' = capacity s ∧
              Inv s' es' ∧ Recent (u ++ trace ops s) es'.
Proof.
  revert s es u. induction ops as [|op ops IH]; intros s es u HInv HR.
  - exists s, 0, es. rewrite app_nil_r. split_and!; done.
  - destruct (call_spec _ _ op HInv) as (r & s1 & c1 & Hrun1 & Hcap1 & _ & _ & _ & HInv1).
    pose proof (Recent_call _ _ _ op HInv HR) as HR1.
    destruct (IH _ _ _ HInv1 HR1) as (s2 & c2 & es2 & Hrun2 & Hcap2 & HInv2 & HR2).
    exists s2, (c1 + c2), es2. split_and!.
    + cbn [calls]. rewrite (bind_Return _ _ _ _ _ _ Hrun1). by rewrite Hrun2.
    + congruence.
    + done.
    + cbn [trace]. rewrite Hrun1. by rewrite app_assoc.
Qed.

Lemma session_Recent cap ops :
  ∃ s c es, session cap ops = Return tt s c ∧ capacity s = cap ∧
            Inv s es ∧ Recent (uses cap ops) es.
Proof.
  destruct (calls_Recent ops _ _ [] (__init___Inv cap) (Recent_nil []))
    as (s & c & es & Hrun & Hcap & HInv & HR).
  exists s, (8 + c), es. unfold session, uses. rewrite __init___run. cbn [continue].
  rewrite Hrun. split_and!; done.
Qed.

End recency.

(** ** Consequences of the specifications *)

Lemma gets_miss n k s :
  cache s !! k = None → gets n k s = Return (replicate n (-1)%Z) s n.
Proof.
  intros Hc. induction n as [|n IH]; [done|].
  cbn [gets replicate]. rewrite (bind_Return _ _ _ _ _ _ (get_miss _ _ Hc)).
  rewrite (bind_Return _ _ _ _ _ _ IH). unfold ret. f_equal. lia.
Qed.

Lemma Inv_nil_cache s : Inv s [] → cache s = ∅.
Proof. intros HInv. by rewrite (Indexed_list_to_map _ _ (inv_indexed _ _ HInv)). Qed.

Lemma Inv_zero s es : Inv s es → (capacity s ≤ 0)%Z → es = [].
Proof.
  intros HInv Hcap. pose proof (inv_bound _ _ HInv) as Hb.
  destruct es; [done|]. simpl in Hb. lia.
Qed.

Lemma without_cons_ne k e es : ekey e ≠ k → without k (e :: es) = e :: without k es.
Proof. intros. unfold without. by rewrite filter_cons_True. Qed.

Lemma without_cons_eq k e es : ekey e = k → without k (e :: es) = without k es.
Proof. intros. unfold without. rewrite filter_cons_False; [done|]. by intros Hne. Qed.

Lemma model_get_cons_eq k e es :
  ekey e = k → model_get k (e :: es) = e :: without k es.
Proof.
  intros Hk. unfold model_get. rewrite filter_cons_True by done.
  by rewrite without_cons_eq.
Qed.

Lemma model_result_cons_eq k e es : ekey e = k → model_result k (e :: es) = evalue e.
Proof. intros Hk. unfold model_result. by rewrite filter_cons_True. Qed.

Lemma model_result_cons_ne k e es :
  ekey e ≠ k → model_result k (e :: es) = model_result k es.
Proof. intros Hk. unfold model_result. by rewrite filter_cons_False. Qed.

Lemma scenario_model k1 k2 k3 v1 v2 v3 :
  k1 ≠ k2 → k1 ≠ k3 → k2 ≠ k3 →
  (model_calls 2 [Put k1 v1; Put k2 v2; Get k1; Put k3 v3] (2, [])).2 =
    [Entry 4 k3 v3; Entry 2 k1 v1].
Proof.
  intros H12 H13 H23. unfold model_calls. cbn [foldl model_call fst snd].
  assert (model_put 2 2 k1 v1 [] = [Entry 2 k1 v1]) as -> by done.
  assert (model_put 2 3 k2 v2 [Entry 2 k1 v1] = [Entry 3 k2 v2; Entry 2 k1 v1]) as ->.
  { unfold model_put. by rewrite without_cons_ne by done. }
  assert (model_get k1 [Entry 3 k2 v2; Entry 2 k1 v1] =
          [Entry 2 k1 v1; Entry 3 k2 v2]) as ->.
  { unfold model_get. rewrite filter_cons_False by (simpl; congruence).
    rewrite filter_cons_True by done. rewrite without_cons_ne by (simpl; congruence).
    by rewrite without_cons_eq by done. }
  unfold model_put. rewrite !without_cons_ne by (simpl; congruence). done.
Qed.

Lemma model_result_elem e es :
  NoDup (ekey <$> es) → e ∈ es → model_result (ekey e) es = evalue e.
Proof.
  intros Hnd (es1 & es2 & ->)%list_elem_of_split.
  unfold model_result. by rewrite filter_key_split.
Qed.

(** What [get] returns for a key of the dict is the [val] of the node the dict
    holds for it. *)
Lemma get_present s es k a :
  Inv s es → cache s !! k = Some a →
  ∃ v, Entry a k v ∈ es ∧ val <$> heap s !! a = Some v ∧ result (get k s) = Some v.
Proof.
  intros HInv Hc.
  apply (indexed_cache _ _ (inv_indexed _ _ HInv)) in Hc as [v Hv].
  exists v. split; [done|]. split.
  - apply (linked_nodes _ _ (inv_linked _ _ HInv) _ Hv).
  - destruct (get_spec _ _ k HInv) as (s' & c' & -> & _). simpl.
    by rewrite (model_result_elem (Entry a k v)) by (done || apply HInv).
Qed.

Lemma model_put_present s es k v a n :
  Inv s es → cache s !! k = Some a →
  model_victim (capacity s) n k v es = None ∧
  model_put (capacity s) n k v es = Entry n k v :: without k es.
Proof.
  intros HInv Hc. pose proof (inv_bound _ _ HInv) as Hb.
  apply (indexed_cache _ _ (inv_indexed _ _ HInv)) in Hc as [v0 Hv0].
  apply list_elem_of_split in Hv0 as (es1 & es2 & ->).
  unfold model_victim, model_put. cbv zeta.
  rewrite without_split by (done || apply HInv).
  rewrite length_app in Hb. simpl in Hb. simpl. rewrite length_app.
  destruct (Z.gtb_spec (Z.of_nat (S (length es1 + length es2))) (capacity s)); [lia|done].
Qed.

(** [put] on a key of the dict: no eviction, same keys. *)
Lemma put_present s es k v :
  Inv s es → is_Some (cache s !! k) →
  ∃ s' c, put k v s = Return tt s' c ∧
          Inv s' (Entry (length (heap s)) k v :: without k es) ∧
          cache s' = <[k := length (heap s)]> (cache s) ∧
          dom (cache s') = dom (cache s) ∧
          size (cache s') = size (cache s).
Proof.
  intros HInv [a Hc].
  destruct (put_spec _ _ k v HInv) as (s' & c & Hrun & _ & _ & _ & _ & _ & HInv' & Hcache).
  destruct (model_put_present s es k v a (length (heap s)) HInv Hc) as [Hvict Hput].
  rewrite Hvict in Hcache. rewrite Hput in HInv'.
  exists s', c. split_and!; [done..| |].
  - rewrite Hcache, dom_insert_L. apply elem_of_dom_2 in Hc. set_solver.
  - rewrite Hcache. apply map_size_insert_Some. eauto.
Qed.

(** With a positive capacity the node [put] links at the head is not the one
    it evicts. *)
Lemma model_put_positive cap n k v es :
  (0 < cap)%Z → ∃ rest, model_put cap n k v es = Entry n k v :: rest.
Proof.
  intros Hcap. unfold model_put. cbv zeta.
  destruct (Z.gtb_spec (Z.of_nat (length (Entry n k v :: without k es))) cap) as [Hgt|_];
    [|eauto].
  destruct (without k es) as [|x l]; [simpl in Hgt; lia|].
  simpl. eauto.
Qed.

(** [_add] of a fresh node between the two dummies, then [_remove] of it:
    the dummies are linked as before and the node keeps the links [_add]
    gave it. *)
Lemma push_unlink_fresh (h : list Node) (hd tl : addr) (k v : Z) :
  hd ≠ tl → next_at h hd = Some (Some tl) → prev_at h tl = Some (Some hd) →
  unlink hd tl (push hd (length h) tl (h ++ [mkNode k v None None])) =
    h ++ [mkNode k v (Some hd) (Some tl)].
Proof.
  intros Hne Hn Hp.
  pose proof (next_at_lt _ _ _ Hn) as Hlt_hd. pose proof (prev_at_lt _ _ _ Hp) as Hlt_tl.
  unfold next_at in Hn. unfold prev_at in Hp.
  destruct (h !! hd) as [nh|] eqn:Hnh; [|done].
  destruct (h !! tl) as [nt|] eqn:Hnt; [|done].
  simpl in Hn, Hp. injection Hn as Hn. injection Hp as Hp.
  apply list_eq. intros i. unfold unlink, push.
  destruct (decide (i = hd)) as [->|Hi1]; [|destruct (decide (i = tl)) as [->|Hi2];
    [|destruct (decide (i = length h)) as [->|Hi3]]].
  - rewrite list_lookup_alter_ne, list_lookup_alter_eq by done.
    rewrite !list_lookup_alter_ne by lia. rewrite list_lookup_alter_eq.
    rewrite !lookup_app_l, Hnh by done. destruct nh. simpl in *. by subst.
  - rewrite list_lookup_alter_eq, list_lookup_alter_ne by done.
    rewrite list_lookup_alter_eq. rewrite !list_lookup_alter_ne by lia.
    rewrite !lookup_app_l, Hnt by done. destruct nt. simpl in *. by subst.
  - rewrite !list_lookup_alter_ne by lia.
    rewrite list_lookup_alter_eq, list_lookup_alter_eq, list_lookup_alter_ne by lia.
    by rewrite !list_lookup_middle.
  - rewrite !list_lookup_alter_ne by done.
    destruct (decide (i < length h)).
    + by rewrite !lookup_app_l.
    + rewrite !lookup_ge_None_2; [done|rewrite length_app; simpl; lia..].
Qed.

(** [put] on an empty cache whose capacity is not positive, step by step. *)
Lemma put_empty s k v :
  Inv s [] → (capacity s ≤ 0)%Z →
  put k v s =
    Return tt (with_heap (heap s ++ [mkNode k v (Some (head s)) (Some (tail s))]) s) 21.
Proof.
  intros HInv Hcap. pose proof (inv_linked _ _ HInv) as HL.
  pose proof (Inv_nil_cache _ HInv) as Hc.
  pose proof (head_next_nil _ HL) as Hn. pose proof (tail_prev_nil _ HL) as Hp.
  assert (head s ≠ tail s) as Hne.
  { pose proof (linked_nodup _ _ HL) as Hnd. unfold path in Hnd. simpl in Hnd.
    apply NoDup_cons in Hnd as [Hnin _]. intros Heq. apply Hnin. rewrite Heq. left. }
  pose proof (next_at_lt _ _ _ Hn) as Hlt_hd. pose proof (prev_at_lt _ _ _ Hp) as Hlt_tl.
  set (a := length (heap s)). set (n := mkNode k v None None).
  set (s1 := with_heap (heap s ++ [n]) s).
  assert (_add (Some a) s1 =
          Return tt (with_heap (push (head s) a (tail s) (heap s ++ [n])) s1) 8) as Hadd.
  { apply (_add_run s1 a (tail s)); unfold s1; cbn [with_heap heap head].
    - unfold next_at in *. by rewrite lookup_app_l.
    - rewrite length_app. simpl. unfold a. lia.
    - rewrite length_app. simpl. lia. }
  set (h2 := push (head s) a (tail s) (heap s ++ [n])) in *.
  assert (length h2 = S a) as Hlen2.
  { unfold h2. rewrite push_length, length_app. simpl. unfold a. lia. }
  set (s3 := with_cache (<[k := a]> (cache s)) (with_heap h2 s1)).
  assert (prev_at h2 (tail s) = Some (Some a)) as Hp2.
  { unfold h2, push. apply prev_at_set_prev_eq. rewrite !length_alter, length_app.
    simpl. lia. }
  assert (prev_at h2 a = Some (Some (head s))) as Hpa.
  { unfold h2, push. rewrite prev_at_set_prev_ne, prev_at_set_next by (unfold a; lia).
    apply prev_at_set_prev_eq. rewrite !length_alter, length_app. simpl. unfold a. lia. }
  assert (next_at h2 a = Some (Some (tail s))) as Hna.
  { unfold h2, push. rewrite next_at_set_prev.
    apply next_at_set_next_eq. rewrite !length_alter, length_app. simpl. unfold a. lia. }
  assert (_remove (Some a) s3 =
          Return tt (with_heap (unlink (head s) (tail s) h2) s3) 4) as Hrem.
  { apply (_remove_run s3 a (head s) (tail s)); unfold s3, s1;
      cbn [with_cache with_heap heap]; [done|done|lia|lia]. }
  assert (key <$> unlink (head s) (tail s) h2 !! a = Some k) as Hkey.
  { unfold h2. rewrite unlink_key, push_key. unfold a. by rewrite list_lookup_middle. }
  assert (put_tail k v s =
          Return tt (with_cache (delete k (<[k := a]> (cache s)))
                       (with_heap (unlink (head s) (tail s) h2) s3)) 20) as Htail.
  { unfold put_tail. rewrite (bind_Return _ _ s a s1 1) by done.
    rewrite (bind_Return _ _ _ _ _ _ Hadd).
    rewrite (bind_Return _ _ (with_heap h2 s1) tt s3 1) by done.
    rewrite (bind_Return _ _ s3 1%Z s3 1).
    2:{ unfold len, s3. cbn [with_cache cache]. rewrite Hc.
        by rewrite insert_empty, map_size_singleton. }
    rewrite (bind_Return _ _ s3 (capacity s) s3 1) by done.
    destruct (Z.gtb_spec 1 (capacity s)) as [_|Hle]; [|lia].
    unfold evict. rewrite (bind_Return _ _ s3 (Some (tail s)) s3 1) by done.
    rewrite (bind_Return _ _ s3 (Some a) s3 1) by (by apply load_run).
    rewrite (bind_Return _ _ _ _ _ _ Hrem).
    rewrite (bind_Return _ _ (with_heap (unlink (head s) (tail s) h2) s3) k
               (with_heap (unlink (head s) (tail s) h2) s3) 1) by (by apply load_run).
    unfold delitem, s3. cbn [with_heap with_cache cache]. by rewrite lookup_insert_eq. }
  rewrite put_unfold. rewrite (bind_Return _ _ s false s 1).
  2:{ unfold contains. rewrite Hc, lookup_empty. rewrite bool_decide_false; [done|].
      by intros [? ?]. }
  rewrite (bind_Return _ _ s tt s 0) by done. rewrite Htail.
  unfold h2, a, n. rewrite push_unlink_fresh by done.
  rewrite delete_insert_eq, Hc, delete_empty. unfold s3, s1.
  destruct s. simpl in *. by subst.
Qed.

(** ** Properties of the cache *)

(** C1. Capacity bound: a cache built with a positive capacity answers every
    sequence of [get] and [put] calls, and after the last of them (so after
    each of them, the sequence being arbitrary) the dict holds at most
    [capacity] keys. *)
Theorem capacity_bound (cap : Z) (ops : list Op) :
  (0 < cap)%Z →
  ∃ s c, session cap ops = Return tt s c ∧ (Z.of_nat (size (cache s)) ≤ cap)%Z.
Proof.
  intros Hcap.
  destruct (session_spec cap ops) as (s & c & Hrun & Hc & _ & _ & _ & HInv).
  exists s, c. split; [done|].
  rewrite (Indexed_size _ _ (inv_indexed _ _ HInv)).
  pose proof (inv_bound _ _ HInv). lia.
Qed.

Lemma capacity_bound_witness :
  (0 < 2)%Z ∧
  ∃ s c, session 2 [Put 1 10; Put 2 20; Get 1; Put 3 30; Put 4 40] = Return tt s c ∧
         (Z.of_nat (size (cache s)) ≤ 2)%Z.
Proof. split; [lia|]. apply (capacity_bound 2). lia. Defined.

(** C2. Eviction: on a cache of positive capacity, after any calls, [put] of
    a key that is not in the dict while the dict is full evicts exactly one
    entry: the node before the tail dummy, which is the last real node of the
    list and the least recently used (every other key of the dict was used
    after its last use); its key leaves the dict, the new key enters, and the
    list is the new node followed by the old list without its last node.  Any
    other [put] only stores its key: no key leaves the dict. *)
Theorem eviction (cap : Z) (ops : list Op) (k v : Z) :
  (0 < cap)%Z →
  ∃ s c s' c',
    session cap ops = Return tt s c ∧ put k v s = Return tt s' c' ∧
    (cache s !! k = None → (cap < Z.of_nat (size (cache s)) + 1)%Z →
     ∃ lru klru,
       prev_at (heap s) (tail s) = Some (Some lru) ∧
       last (order s) = Some lru ∧
       key <$> heap s !! lru = Some klru ∧
       cache s !! klru = Some lru ∧
       (∀ k', is_Some (cache s !! k') → k' ≠ klru →
              more_recent (uses cap ops) k' klru) ∧
       klru ≠ k ∧
       cache s' = delete klru (<[k := length (heap s)]> (cache s)) ∧
       dom (cache s') = ({[k]} ∪ dom (cache s)) ∖ {[klru]} ∧
       order s' = length (heap s) :: removelast (order s)) ∧
    (¬ (cache s !! k = None ∧ (cap < Z.of_nat (size (cache s)) + 1)%Z) →
     cache s' = <[k := length (heap s)]> (cache s)).
Proof.
  intros Hpos.
  destruct (session_Recent cap ops) as (s & c & es & Hrun & Hcap & HInv & HR).
  destruct (put_spec _ _ k v HInv)
    as (s' & c' & Hrun' & _ & _ & _ & _ & _ & HInv' & Hcache).
  pose proof (inv_indexed _ _ HInv) as HI. pose proof (inv_linked _ _ HInv) as HL.
  pose proof (inv_bound _ _ HInv) as Hb.
  pose proof (Indexed_size _ _ HI) as Hsize.
  exists s, c, s', c'. split; [done|]. split; [done|]. split.
  - intros Hc Hfull.
    pose proof (proj1 (Indexed_None _ _ k HI) Hc) as Hnin.
    pose proof (without_notin _ _ Hnin) as Hw.
    destruct es as [|e0 es0]; [simpl in *; lia|].
    destruct (cons_snoc e0 es0) as (l & e & Hes). rewrite Hes in *. clear Hes e0 es0.
    assert (model_victim (capacity s) (length (heap s)) k v (l ++ [e]) = Some e) as Hvict.
    { unfold model_victim. cbv zeta. rewrite Hw.
      destruct (Z.gtb_spec (Z.of_nat (length (Entry (length (heap s)) k v :: l ++ [e])))
                  (capacity s)) as [_|Hle]; [|simpl in Hle; lia].
      by rewrite app_comm_cons, last_snoc. }
    assert (model_put (capacity s) (length (heap s)) k v (l ++ [e]) =
            Entry (length (heap s)) k v :: l) as Hput.
    { unfold model_put. cbv zeta. rewrite Hw.
      destruct (Z.gtb_spec (Z.of_nat (length (Entry (length (heap s)) k v :: l ++ [e])))
                  (capacity s)) as [_|Hle]; [|simpl in Hle; lia].
      by rewrite app_comm_cons, removelast_last. }
    rewrite Hvict in Hcache. rewrite Hput in HInv'.
    assert (e ∈ l ++ [e]) as Hin by set_solver.
    assert (ekey e ≠ k) as Hne.
    { intros <-. apply Hnin. by apply list_elem_of_fmap_2. }
    exists (eaddr e), (ekey e). split_and!.
    + by apply (tail_prev s l).
    + rewrite (order_Linked _ _ HL), fmap_app. apply last_snoc.
    + apply (linked_nodes _ _ HL _ Hin).
    + by apply (Indexed_lookup s (l ++ [e])).
    + intros k' [a' Hk'] Hne'. apply HI in Hk' as [v' Hv'].
      apply elem_of_app in Hv' as [Hv'|Hv'].
      * change k' with (ekey (Entry a' k' v')). apply HR.
        apply (sublist_app [_] l [e] [e]); [by apply singleton_sublist_l|done].
      * apply list_elem_of_singleton in Hv'. subst e. by destruct Hne'.
    + done.
    + done.
    + by rewrite Hcache, dom_delete_L, dom_insert_L.
    + rewrite (order_Linked _ _ (inv_linked _ _ HInv')), (order_Linked _ _ HL).
      rewrite fmap_cons, fmap_app. cbn [eaddr]. f_equal.
      change (eaddr <$> [e]) with [eaddr e]. by rewrite removelast_last.
  - intros Hnot. destruct (cache s !! k) as [a|] eqn:Hc.
    + destruct (model_put_present s es k v a (length (heap s)) HInv Hc) as [Hvict _].
      by rewrite Hvict in Hcache.
    + pose proof (proj1 (Indexed_None _ _ k HI) Hc) as Hnin.
      pose proof (without_notin _ _ Hnin) as Hw.
      assert (model_victim (capacity s) (length (heap s)) k v es = None) as Hvict.
      { unfold model_victim. cbv zeta. rewrite Hw.
        destruct (Z.gtb_spec (Z.of_nat (length (Entry (length (heap s)) k v :: es)))
                    (capacity s)) as [Hgt|_]; [|done].
        destruct Hnot. split; [done|]. simpl in Hgt. lia. }
      by rewrite Hvict in Hcache.
Qed.

Lemma eviction_witness :
  (0 < 2)%Z ∧
  ∃ s c s' c',
    session 2 [Put 1 10; Put 2 20; Get 1] = Return tt s c ∧
    put 3 30 s = Return tt s' c' ∧
    cache s !! 3%Z = None ∧ (2 < Z.of_nat (size (cache s)) + 1)%Z ∧
    prev_at (heap s) (tail s) = Some (Some 3) ∧
    key <$> heap s !! 3 = Some 2%Z ∧
    more_recent (uses 2 [Put 1 10; Put 2 20; Get 1]) 1 2 ∧
    cache s' = delete 2%Z (<[3%Z := 4]> (cache s)).
Proof.
  split; [lia|].
  destruct (eviction 2 [Put 1 10; Put 2 20; Get 1] 3 30 ltac:(lia))
    as (s & c & s' & c' & Hrun & Hput & Hevict & _).
  exists s, c, s', c'. split; [exact Hrun|]. split; [exact Hput|].
  vm_compute in Hrun. injection Hrun as <- _.
  match type of Hevict with
  | ?P → ?Q → _ =>
      assert P as H1 by (vm_compute; reflexivity);
      assert Q as H2 by (vm_compute; reflexivity)
  end.
  destruct (Hevict H1 H2)
    as (lru & klru & Hprev & _ & Hkey & _ & Hrecent & _ & Hcache & _).
  vm_compute in Hprev. injection Hprev as <-.
  vm_compute in Hkey. injection Hkey as <-.
  split; [exact H1|]. split; [exact H2|].
  split; [vm_compute; reflexivity|]. split; [vm_compute; reflexivity|].
  split; [apply Hrecent; [by exists 2|discriminate]|].
  exact Hcache.
Defined.

(** C3. Recency scenario: on a fresh cache of capacity 2 and for three distinct
    keys, after [put(k1,v1); put(k2,v2); get(k1); put(k3,v3)] the key [k2] is
    gone from the dict and [get(k2)] returns [-1], while [get(k1)] returns [v1]
    and [get(k3)] returns [v3]. *)
Theorem recency_scenario (k1 k2 k3 v1 v2 v3 : Z) :
  k1 ≠ k2 → k1 ≠ k3 → k2 ≠ k3 →
  ∃ s c, session 2 [Put k1 v1; Put k2 v2; Get k1; Put k3 v3] = Return tt s c ∧
         cache s !! k2 = None ∧
         result (get k2 s) = Some (-1)%Z ∧
         result (get k1 s) = Some v1 ∧
         result (get k3 s) = Some v3.
Proof.
  intros H12 H13 H23.
  destruct (session_spec 2 [Put k1 v1; Put k2 v2; Get k1; Put k3 v3])
    as (s & c & Hrun & _ & _ & _ & _ & HInv).
  rewrite scenario_model in HInv by done.
  exists s, c. split; [done|].
  assert (cache s !! k2 = None) as Hc2.
  { apply (Indexed_None _ _ _ (inv_indexed _ _ HInv)). simpl.
    rewrite !not_elem_of_cons. split_and!; [congruence..|apply not_elem_of_nil]. }
  split; [done|]. split; [by rewrite get_miss|]. split.
  - destruct (get_spec _ _ k1 HInv) as (s' & c' & -> & _). simpl.
    rewrite model_result_cons_ne by (simpl; congruence).
    by rewrite model_result_cons_eq.
  - destruct (get_spec _ _ k3 HInv) as (s' & c' & -> & _). simpl.
    by rewrite model_result_cons_eq.
Qed.

Lemma recency_scenario_witness :
  (1 ≠ 2 ∧ 1 ≠ 3 ∧ 2 ≠ 3)%Z ∧
  ∃ s c, session 2 [Put 1 10; Put 2 20; Get 1; Put 3 30] = Return tt s c ∧
         cache s !! 2%Z = None ∧
         result (get 2 s) = Some (-1)%Z ∧
         result (get 1 s) = Some 10%Z ∧
         result (get 3 s) = Some 30%Z.
Proof.
  split; [lia|]. apply (recency_scenario 1 2 3 10 20 30); lia.
Defined.

(** C4. Round trip: after any calls on a cache of positive capacity, a key
    that is in the dict (inserted and not evicted since) has been the subject
    of some [put], and [get] returns the value of the last such [put]. *)
Theorem round_trip (cap : Z) (ops : list Op) (k : Z) :
  (0 < cap)%Z →
  ∃ s c, session cap ops = Return tt s c ∧
         ∀ a, cache s !! k = Some a →
              ∃ v, last_put k ops = Some v ∧ result (get k s) = Some v.
Proof.
  intros _.
  destruct (session_spec cap ops) as (s & c & Hrun & _ & _ & _ & _ & HInv).
  exists s, c. split; [done|]. intros a Hc.
  destruct (get_present _ _ _ _ HInv Hc) as (v & Hv & _ & Hres).
  exists v. split; [|done]. by apply (Hist_session cap ops) in Hv.
Qed.

Lemma round_trip_witness :
  (0 < 2)%Z ∧
  ∃ s c, session 2 [Put 1 10; Put 2 5; Put 1 11] = Return tt s c ∧
         result (get 1 s) = Some 11%Z.
Proof.
  split; [lia|].
  destruct (round_trip 2 [Put 1 10; Put 2 5; Put 1 11] 1 ltac:(lia))
    as (s & c & Hrun & H).
  exists s, c. split; [exact Hrun|].
  assert (cache s !! 1%Z = Some 4) as Hc.
  { vm_compute in Hrun. injection Hrun as <- _. vm_compute. reflexivity. }
  destruct (H 4 Hc) as (v & Hv & Hres).
  vm_compute in Hv. injection Hv as <-. exact Hres.
Defined.

(** C5, against the claim: [LRUCache(0)] does not fail; it returns a cache. *)
Lemma constructor_accepts_zero :
  (0 ≤ 0)%Z ∧ (∀ e, __init__ 0 ≠ Raise e) ∧ is_Some (final (__init__ 0)).
Proof. split; [lia|]. split; [intros e; by rewrite __init___run|]. by eexists. Qed.

(** C5, amended. The constructor checks nothing: for every [capacity], also
    zero or negative, it returns a cache with that capacity, an empty dict and
    the two dummy nodes linked to each other and to nothing else. *)
Theorem constructor_total (cap : Z) :
  ∃ s, __init__ cap = Return tt s 8 ∧
       capacity s = cap ∧ cache s = ∅ ∧ order s = [] ∧ length (heap s) = 2 ∧
       head s ≠ tail s ∧
       next_at (heap s) (head s) = Some (Some (tail s)) ∧
       prev_at (heap s) (tail s) = Some (Some (head s)) ∧
       prev_at (heap s) (head s) = Some None ∧
       next_at (heap s) (tail s) = Some None.
Proof. eexists. split; [apply __init___run|]. split_and!; done. Qed.

(** C6. Re-insertion: on a cache of positive capacity, after any calls,
    [put(k,v1); put(k,v2)] leaves [get(k)] returning [v2] and the second [put]
    changes neither the keys of the dict nor their number; more generally a
    [put] on any key already in the dict keeps the keys of the dict as they
    are, so evicts nothing. *)
Theorem reinsertion (cap : Z) (ops : list Op) (k v1 v2 : Z) :
  (0 < cap)%Z →
  ∃ s c, session cap ops = Return tt s c ∧
    (∃ s1 c1 s2 c2,
       put k v1 s = Return tt s1 c1 ∧ put k v2 s1 = Return tt s2 c2 ∧
       result (get k s2) = Some v2 ∧
       size (cache s2) = size (cache s1) ∧ dom (cache s2) = dom (cache s1)) ∧
    (∀ k' v', is_Some (cache s !! k') →
       ∃ s' c', put k' v' s = Return tt s' c' ∧
                size (cache s') = size (cache s) ∧ dom (cache s') = dom (cache s)).
Proof.
  intros Hcap.
  destruct (session_spec cap ops) as (s & c & Hrun & Hc & _ & _ & _ & HInv).
  exists s, c. split; [done|]. split.
  - destruct (put_spec _ _ k v1 HInv)
      as (s1 & c1 & Hrun1 & _ & Hcap1 & _ & _ & _ & HInv1 & _).
    destruct (model_put_positive (capacity s) (length (heap s)) k v1
                (model_calls cap ops (2, [])).2 ltac:(lia)) as [rest Hrest].
    rewrite Hrest in HInv1.
    assert (is_Some (cache s1 !! k)) as Hin.
    { exists (length (heap s)).
      apply (indexed_cache _ _ (inv_indexed _ _ HInv1)). exists v1. left. }
    destruct (put_present _ _ k v2 HInv1 Hin) as (s2 & c2 & Hrun2 & HInv2 & _ & Hdom & Hsize).
    exists s1, c1, s2, c2. split_and!; [done..| |done|done].
    destruct (get_spec _ _ k HInv2) as (s' & c' & -> & _). simpl.
    by rewrite model_result_cons_eq.
  - intros k' v' Hin.
    destruct (put_present _ _ k' v' HInv Hin) as (s' & c' & Hrun' & _ & _ & Hdom & Hsize).
    by exists s', c'.
Qed.

Lemma reinsertion_witness :
  (0 < 2)%Z ∧
  ∃ s c, session 2 [Put 1 10; Put 2 20] = Return tt s c ∧
    (∃ s1 c1 s2 c2,
       put 3 30 s = Return tt s1 c1 ∧ put 3 31 s1 = Return tt s2 c2 ∧
       result (get 3 s2) = Some 31%Z ∧
       size (cache s2) = size (cache s1) ∧ dom (cache s2) = dom (cache s1)) ∧
    (∀ k' v', is_Some (cache s !! k') →
       ∃ s' c', put k' v' s = Return tt s' c' ∧
                size (cache s') = size (cache s) ∧ dom (cache s') = dom (cache s)).
Proof. split; [lia|]. apply (reinsertion 2 [Put 1 10; Put 2 20] 3 30 31). lia. Defined.

(** C7. Absence is stable: after any calls on a cache of any capacity, a key
    that no [put] ever inserted is not in the dict, and [get] on a key that is
    not in the dict (never inserted, or evicted) returns [-1] and leaves the
    whole state, dict and list included, as it was, however often it is
    repeated. *)
Theorem absence_stable (cap : Z) (ops : list Op) (k : Z) (n : nat) :
  ∃ s c, session cap ops = Return tt s c ∧
         (last_put k ops = None → cache s !! k = None) ∧
         (cache s !! k = None →
          get k s = Return (-1)%Z s 1 ∧
          gets n k s = Return (replicate n (-1)%Z) s n).
Proof.
  destruct (session_spec cap ops) as (s & c & Hrun & _ & _ & _ & _ & HInv).
  exists s, c. split; [done|]. split.
  - intros Hlast. destruct (cache s !! k) as [a|] eqn:Hc; [|done].
    apply (indexed_cache _ _ (inv_indexed _ _ HInv)) in Hc as [v Hv].
    apply (Hist_session cap ops) in Hv. simpl in Hv. congruence.
  - intros Hc. split; [by apply get_miss|by apply gets_miss].
Qed.

Lemma absence_stable_witness :
  ∃ s c, session 2 [Put 1 10; Put 2 20; Put 3 30] = Return tt s c ∧
         last_put 7 [Put 1 10; Put 2 20; Put 3 30] = None ∧ cache s !! 7%Z = None ∧
         cache s !! 1%Z = None ∧
         gets 3 1 s = Return [-1; -1; -1]%Z s 3.
Proof.
  destruct (absence_stable 2 [Put 1 10; Put 2 20; Put 3 30] 7 0)
    as (s & c & Hrun & Hnever & _).
  destruct (absence_stable 2 [Put 1 10; Put 2 20; Put 3 30] 1 3)
    as (s' & c' & Hrun' & _ & Hgets).
  rewrite Hrun in Hrun'. injection Hrun' as <- <-.
  exists s, c. split; [exact Hrun|]. split; [reflexivity|].
  split; [apply Hnever; reflexivity|].
  assert (cache s !! 1%Z = None) as Hc.
  { vm_compute in Hrun. injection Hrun as <- _. vm_compute. reflexivity. }
  split; [exact Hc|]. apply Hgets, Hc.
Defined.

(** C8, against the claim: with [-1] stored under key 1 and nothing under
    key 2, [get(1)] and [get(2)] return the same thing. *)
Lemma sentinel_collision :
  ∃ s c, session 2 [Put 1 (-1)] = Return tt s c ∧
         is_Some (cache s !! 1%Z) ∧ cache s !! 2%Z = None ∧
         result (get 1 s) = Some (-1)%Z ∧ result (get 2 s) = Some (-1)%Z ∧
         result (get 1 s) = result (get 2 s).
Proof.
  eexists _, _. split; [vm_compute; reflexivity|].
  split_and!; vm_compute; eauto.
Qed.

(** C8, amended. [get] on a key that is not in the dict returns [-1], [get] on
    a key that is returns the stored value, and the two results differ exactly
    when the stored value is not [-1]. *)
Theorem absent_result_overlap (cap : Z) (ops : list Op) (k k' : Z) :
  ∃ s c, session cap ops = Return tt s c ∧
    ∀ a, cache s !! k = Some a → cache s !! k' = None →
      ∃ v, val <$> heap s !! a = Some v ∧
           result (get k s) = Some v ∧
           result (get k' s) = Some (-1)%Z ∧
           (result (get k s) = result (get k' s) ↔ v = (-1)%Z).
Proof.
  destruct (session_spec cap ops) as (s & c & Hrun & _ & _ & _ & _ & HInv).
  exists s, c. split; [done|]. intros a Hc Hc'.
  destruct (get_present _ _ _ _ HInv Hc) as (v & _ & Hval & Hres).
  exists v. rewrite Hres, (get_miss _ _ Hc'). simpl.
  split_and!; [done..|]. split; congruence.
Qed.

Lemma absent_result_overlap_witness :
  ∃ s c, session 2 [Put 1 5] = Return tt s c ∧
         result (get 1 s) = Some 5%Z ∧ result (get 2 s) = Some (-1)%Z ∧
         result (get 1 s) ≠ result (get 2 s).
Proof.
  destruct (absent_result_overlap 2 [Put 1 5] 1 2) as (s & c & Hrun & H).
  exists s, c. split; [exact Hrun|].
  assert (cache s !! 1%Z = Some 2 ∧ cache s !! 2%Z = None ∧
          val <$> heap s !! 2 = Some 5%Z) as (Hc1 & Hc2 & Hval).
  { vm_compute in Hrun. injection Hrun as <- _. vm_compute. auto. }
  destruct (H 2 Hc1 Hc2) as (v & Hv & Hres & Hres' & Hiff).
  rewrite Hval in Hv. injection Hv as <-.
  split; [exact Hres|]. split; [exact Hres'|].
  intros Heq. apply Hiff in Heq. discriminate Heq.
Defined.

(** C9. Capacity zero: the constructor accepts it, and after any calls the
    dict is empty, the list holds the two dummy nodes only, and every [get]
    returns [-1].  Every [put] inserts and at once evicts its own node: it
    takes the 21 steps of the path through the eviction branch, the store
    grows by the node it made, which carries the key and the value and still
    points at the two dummies between which it was linked, and the dict entry
    deleted is the one just stored, so that dict and list are empty again. *)
Theorem capacity_zero (ops : list Op) :
  ∃ s c, session 0 ops = Return tt s c ∧
         is_Some (final (__init__ 0)) ∧
         cache s = ∅ ∧ order s = [] ∧
         next_at (heap s) (head s) = Some (Some (tail s)) ∧
         prev_at (heap s) (tail s) = Some (Some (head s)) ∧
         (∀ k, get k s = Return (-1)%Z s 1) ∧
         (∀ k v, ∃ s' c',
            put k v s = Return tt s' c' ∧
            c' = 21 ∧
            heap s' = heap s ++ [mkNode k v (Some (head s)) (Some (tail s))] ∧
            capacity s' = capacity s ∧ head s' = head s ∧ tail s' = tail s ∧
            cache s' = delete k (<[k := length (heap s)]> (cache s)) ∧
            cache s' = ∅ ∧ order s' = [] ∧
            next_at (heap s') (head s') = Some (Some (tail s')) ∧
            prev_at (heap s') (tail s') = Some (Some (head s'))).
Proof.
  destruct (session_spec 0 ops) as (s & c & Hrun & Hcap & _ & _ & _ & HInv).
  exists s, c. split; [done|].
  pose proof (Inv_zero _ _ HInv ltac:(lia)) as Hes. rewrite Hes in HInv.
  pose proof (inv_linked _ _ HInv) as HL.
  pose proof (Inv_nil_cache _ HInv) as Hc.
  split_and!.
  - rewrite __init___run. by eexists.
  - done.
  - by rewrite (order_Linked _ _ HL).
  - by apply head_next_nil.
  - by apply tail_prev_nil.
  - intros k. apply get_miss. by rewrite Hc.
  - intros k v.
    destruct (put_spec _ _ k v HInv)
      as (s' & c' & Hrun' & _ & Hcap' & _ & _ & _ & HInv' & Hcache).
    pose proof (put_empty s k v HInv ltac:(lia)) as Hexact.
    exists s', c'. split; [done|].
    assert (model_victim (capacity s) (length (heap s)) k v [] =
            Some (Entry (length (heap s)) k v)) as Hvict.
    { unfold model_victim. simpl. rewrite Hcap. done. }
    rewrite Hvict in Hcache. cbn [ekey] in Hcache.
    pose proof (Inv_zero _ _ HInv' ltac:(lia)) as Hes'. rewrite Hes' in HInv'.
    pose proof (inv_linked _ _ HInv') as HL'.
    rewrite Hexact in Hrun'. injection Hrun' as Hs' Hc'.
    split_and!.
    + done.
    + by rewrite <-Hs'.
    + by rewrite <-Hs'.
    + by rewrite <-Hs'.
    + by rewrite <-Hs'.
    + done.
    + by apply Inv_nil_cache.
    + by rewrite (order_Linked _ _ HL').
    + by apply head_next_nil.
    + by apply tail_prev_nil.
Qed.

(** C10. Constant work: in any state whatever, [get] takes at most 15 and
    [put] at most 26 primitive steps (attribute reads and writes, dict
    operations, allocations), there being no loop in either; and on every
    cache reached by calls from the constructor both do return. *)
Theorem constant_steps (cap : Z) (ops : list Op) :
  (∀ s k, steps_of (get k s) ≤ 15) ∧
  (∀ s k v, steps_of (put k v s) ≤ 26) ∧
  ∃ s c, session cap ops = Return tt s c ∧
         (∀ k, ∃ r s' c', get k s = Return r s' c' ∧ c' ≤ 15) ∧
         (∀ k v, ∃ s' c', put k v s = Return tt s' c' ∧ c' ≤ 26).
Proof.
  split; [intros s k; apply steps_le_get|].
  split; [intros s k v; apply steps_le_put|].
  destruct (session_spec cap ops) as (s & c & Hrun & _ & _ & _ & _ & HInv).
  exists s, c. split; [done|]. split.
  - intros k. destruct (get_spec _ _ k HInv) as (s' & c' & Hrun' & Hc' & _).
    by eexists _, s', c'.
  - intros k v. destruct (put_spec _ _ k v HInv) as (s' & c' & Hrun' & Hc' & _).
    by eexists s', c'.
Qed.

(** ** Further properties of the methods *)

Section further.
Implicit Types (s : LRUCache) (e : entry) (es : list entry) (a : addr) (k v : Z).

Lemma filter_ne_middle (a : addr) (l1 l2 : list addr) :
  NoDup (l1 ++ a :: l2) → filter (λ x, x ≠ a) (l1 ++ a :: l2) = l1 ++ l2.
Proof.
  intros Hnd. apply NoDup_app in Hnd as (_ & Hdisj & Hnd).
  apply NoDup_cons in Hnd as [Hnin _].
  rewrite filter_app, filter_cons_False by (intros Hne; by apply Hne).
  assert (∀ l : list addr, a ∉ l → filter (λ x, x ≠ a) l = l) as Hid.
  { intros l Hl. induction l as [|x l IH]; [done|].
    apply not_elem_of_cons in Hl as [Hne Hl].
    rewrite filter_cons_True by done. by rewrite IH. }
  rewrite !Hid; [done|done|]. intros Hin. apply (Hdisj _ Hin). left.
Qed.

Lemma Linked_addrs_NoDup s es : Linked s es → NoDup (eaddr <$> es).
Proof.
  intros HL. pose proof (linked_nodup _ _ HL) as Hnd. unfold path in Hnd.
  apply NoDup_cons in Hnd as [_ Hnd]. by apply NoDup_app in Hnd as (? & _ & _).
Qed.

Lemma Linked_dummies s es :
  Linked s es → head s ≠ tail s ∧ head s ∉ eaddr <$> es ∧ tail s ∉ eaddr <$> es.
Proof.
  intros HL. pose proof (linked_nodup _ _ HL) as Hnd. unfold path in Hnd.
  apply NoDup_cons in Hnd as [Hhd Hnd].
  apply NoDup_app in Hnd as (_ & Hdisj & _).
  rewrite elem_of_app, list_elem_of_singleton in Hhd. split_and!.
  - intros Heq. apply Hhd. by right.
  - intros Hin. apply Hhd. by left.
  - intros Hin. apply (Hdisj _ Hin). left.
Qed.

Lemma model_calls_allocs cap ops n es :
  (model_calls cap ops (n, es)).1 = n + count_puts ops.
Proof.
  revert n es. unfold model_calls.
  induction ops as [|[k|k v] ops IH]; intros n es; cbn [foldl model_call count_puts fst snd].
  - lia.
  - by rewrite IH.
  - rewrite IH. lia.
Qed.

Lemma session_Inv cap ops :
  ∃ s c es, session cap ops = Return tt s c ∧ capacity s = cap ∧ Inv s es.
Proof.
  destruct (session_spec cap ops) as (s & c & Hrun & Hcap & _ & _ & _ & HInv).
  by eexists s, c, _.
Qed.

(** A hit only moves one entry of the list. *)
Lemma get_Permutation s es k :
  Inv s es →
  ∃ v s' c es', get k s = Return v s' c ∧ cache s' = cache s ∧
                length (heap s') = length (heap s) ∧ capacity s' = capacity s ∧
                Inv s' es' ∧ es' ≡ₚ es.
Proof.
  intros HInv. destruct (cache s !! k) as [a|] eqn:Hc.
  - apply (indexed_cache _ _ (inv_indexed _ _ HInv)) in Hc as [v0 Hin].
    apply list_elem_of_split in Hin as (es1 & es2 & ->).
    destruct (get_hit _ _ _ _ HInv) as (h' & Hrun & Hlen & HInv').
    eexists _, (with_heap h' s), _, _. split; [exact Hrun|].
    split_and!; [done..|]. apply Permutation_middle.
  - exists (-1)%Z, s, 1, es. split; [by apply get_miss|]. split_and!; done.
Qed.

Lemma gets_Permutation ks s es :
  Inv s es →
  ∃ s' c es', calls (Get <$> ks) s = Return tt s' c ∧ cache s' = cache s ∧
              length (heap s') = length (heap s) ∧ Inv s' es' ∧ es' ≡ₚ es.
Proof.
  revert s es. induction ks as [|k ks IH]; intros s es HInv.
  - exists s, 0, es. split_and!; done.
  - destruct (get_Permutation _ _ k HInv)
      as (v & s1 & c1 & es1 & Hrun1 & Hc1 & Hl1 & _ & HInv1 & Hp1).
    destruct (IH _ _ HInv1) as (s2 & c2 & es2 & Hrun2 & Hc2 & Hl2 & HInv2 & Hp2).
    exists s2, (c1 + 0 + c2), es2. split_and!; [|congruence|congruence|done|by etrans].
    cbn [fmap list_fmap calls call]. unfold bind at 1. unfold bind at 1.
    rewrite Hrun1. cbn [continue ret]. by rewrite Hrun2.
Qed.

End further.

(** X1. The dict and the list stay in step: after any calls on a cache of any
    capacity, the list holds each real node once, neither dummy is on it, the
    dict has as many keys as the list has nodes, and the dict maps [k] to [a]
    exactly when node [a] is on the list and carries key [k]. *)
Theorem index_matches_list (cap : Z) (ops : list Op) :
  ∃ s c, session cap ops = Return tt s c ∧
    NoDup (order s) ∧ size (cache s) = length (order s) ∧
    head s ∉ order s ∧ tail s ∉ order s ∧
    (∀ k a, cache s !! k = Some a ↔ a ∈ order s ∧ key <$> heap s !! a = Some k).
Proof.
  destruct (session_Inv cap ops) as (s & c & es & Hrun & _ & HInv).
  pose proof (inv_linked _ _ HInv) as HL. pose proof (inv_indexed _ _ HInv) as HI.
  destruct (Linked_dummies _ _ HL) as (_ & Hhd & Htl).
  exists s, c. split; [done|]. rewrite (order_Linked _ _ HL). split_and!.
  - by apply (Linked_addrs_NoDup s).
  - by rewrite (Indexed_size _ _ HI), length_fmap.
  - done.
  - done.
  - intros k a. split.
    + intros [v Hv]%HI. split; [by apply (list_elem_of_fmap_2 eaddr) in Hv|].
      apply (linked_nodes _ _ HL _ Hv).
    + intros [(e & -> & He)%list_elem_of_fmap Hk].
      destruct (linked_nodes _ _ HL _ He) as [Hk' _].
      rewrite Hk' in Hk. injection Hk as <-. by apply (Indexed_lookup s es).
Qed.

(** X2. Every [put] allocates exactly one node, also when it replaces the node
    of a key already present or evicts, and [get] allocates none: after any
    calls the store holds the two dummies and one node per [put] made. *)
Theorem one_node_per_put (cap : Z) (ops : list Op) :
  ∃ s c, session cap ops = Return tt s c ∧ length (heap s) = 2 + count_puts ops.
Proof.
  destruct (session_spec cap ops) as (s & c & Hrun & _ & _ & _ & Hlen & _).
  exists s, c. split; [done|]. by rewrite Hlen, model_calls_allocs.
Qed.

(** X3. No call raises: whatever the capacity, also zero or negative, and
    whatever the calls, neither [AttributeError] (an attribute of [None]) nor
    [KeyError] (a missing dict key) occurs. *)
Theorem never_raises (cap : Z) (ops : list Op) (e : Exn) :
  session cap ops ≠ Raise e.
Proof.
  destruct (session_spec cap ops) as (s & c & Hrun & _). by rewrite Hrun.
Qed.

(** X4. A capacity that is zero or negative gives a cache that never holds
    anything: after any calls the dict and the list are empty and every [get]
    returns [-1]. *)
Theorem nonpositive_capacity (cap : Z) (ops : list Op) :
  (cap ≤ 0)%Z →
  ∃ s c, session cap ops = Return tt s c ∧
         cache s = ∅ ∧ order s = [] ∧ ∀ k, get k s = Return (-1)%Z s 1.
Proof.
  intros Hcap. destruct (session_Inv cap ops) as (s & c & es & Hrun & Hc & HInv).
  pose proof (Inv_zero _ _ HInv ltac:(lia)) as ->.
  exists s, c. split; [done|]. split_and!.
  - by apply Inv_nil_cache.
  - by rewrite (order_Linked _ _ (inv_linked _ _ HInv)).
  - intros k. apply get_miss. by rewrite (Inv_nil_cache _ HInv).
Qed.

Lemma nonpositive_capacity_witness :
  (-3 ≤ 0)%Z ∧
  ∃ s c, session (-3) [Put 1 10; Get 1; Put 2 20] = Return tt s c ∧
         cache s = ∅ ∧ order s = [] ∧ ∀ k, get k s = Return (-1)%Z s 1.
Proof. split; [lia|]. apply (nonpositive_capacity (-3)). lia. Defined.

(** X5. A hit promotes: [get] on a key of the dict returns the [val] of its
    node, moves that node right behind the head dummy keeping the other nodes
    in their order, and changes neither the dict nor the number of nodes. *)
Theorem get_promotes (cap : Z) (ops : list Op) (k : Z) :
  ∃ s c, session cap ops = Return tt s c ∧
    ∀ a, cache s !! k = Some a →
      ∃ v s' c', get k s = Return v s' c' ∧
        val <$> heap s !! a = Some v ∧
        cache s' = cache s ∧ length (heap s') = length (heap s) ∧
        order s' = a :: filter (λ x, x ≠ a) (order s).
Proof.
  destruct (session_Inv cap ops) as (s & c & es & Hrun & _ & HInv).
  exists s, c. split; [done|]. intros a Hc.
  pose proof (inv_linked _ _ HInv) as HL.
  apply (indexed_cache _ _ (inv_indexed _ _ HInv)) in Hc as [v Hin].
  destruct (linked_nodes _ _ HL _ Hin) as [_ Hval].
  apply list_elem_of_split in Hin as (es1 & es2 & ->).
  destruct (get_hit _ _ _ _ HInv) as (h' & Hrun' & Hlen & HInv').
  exists v, (with_heap h' s), 15. split; [exact Hrun'|]. split_and!; [done..|].
  rewrite (order_Linked _ _ (inv_linked _ _ HInv')), (order_Linked _ _ HL).
  pose proof (Linked_addrs_NoDup _ _ HL) as Hnd.
  rewrite fmap_app, fmap_cons in Hnd. rewrite !fmap_cons, !fmap_app, fmap_cons.
  cbn [eaddr] in *. by rewrite filter_ne_middle.
Qed.

Lemma get_promotes_witness :
  ∃ s c s' c', session 3 [Put 1 10; Put 2 20; Put 3 30] = Return tt s c ∧
               order s = [4; 3; 2] ∧
               get 1 s = Return 10%Z s' c' ∧ order s' = [2; 4; 3].
Proof.
  destruct (get_promotes 3 [Put 1 10; Put 2 20; Put 3 30] 1) as (s & c & Hrun & H).
  assert (cache s !! 1%Z = Some 2 ∧ order s = [4; 3; 2] ∧
          val <$> heap s !! 2 = Some 10%Z) as (Hc & Ho & Hv).
  { vm_compute in Hrun. injection Hrun as <- _. vm_compute. auto. }
  destruct (H 2 Hc) as (v & s' & c' & Hget & Hval & _ & _ & Hord).
  rewrite Hv in Hval. injection Hval as <-.
  exists s, c, s', c'. split; [exact Hrun|]. split; [exact Ho|].
  split; [exact Hget|]. rewrite Hord, Ho. reflexivity.
Defined.

(** X6. Reads do not evict: any run of [get] calls, hits or misses, leaves the
    dict as it was, allocates nothing, and only reorders the list. *)
Theorem gets_keep_dict (cap : Z) (ops : list Op) (ks : list Z) :
  ∃ s c s' c', session cap ops = Return tt s c ∧
    calls (Get <$> ks) s = Return tt s' c' ∧
    cache s' = cache s ∧ length (heap s') = length (heap s) ∧
    order s' ≡ₚ order s.
Proof.
  destruct (session_Inv cap ops) as (s & c & es & Hrun & _ & HInv).
  destruct (gets_Permutation ks _ _ HInv) as (s' & c' & es' & Hrun' & Hc & Hl & HInv' & Hp).
  exists s, c, s', c'. split_and!; [done..|].
  rewrite (order_Linked _ _ (inv_linked _ _ HInv')), (order_Linked _ _ (inv_linked _ _ HInv)).
  by rewrite Hp.
Qed.

(** X7. [put] always makes a new node: with a positive capacity the dict maps
    the key to a node allocated by this call, carrying the key and the value,
    and that node is the first of the list.  A key already present is not
    updated in place: its old node leaves the list, whose other nodes keep
    their order; a new key on a cache that is not full goes in front of the
    unchanged list. *)
Theorem put_links_first (cap : Z) (ops : list Op) (k v : Z) :
  (0 < cap)%Z →
  ∃ s c s' c', session cap ops = Return tt s c ∧ put k v s = Return tt s' c' ∧
    cache s' !! k = Some (length (heap s)) ∧
    key <$> heap s' !! length (heap s) = Some k ∧
    val <$> heap s' !! length (heap s) = Some v ∧
    order s' !! 0 = Some (length (heap s)) ∧
    (∀ a0, cache s !! k = Some a0 →
       a0 ∉ order s' ∧
       order s' = length (heap s) :: filter (λ x, x ≠ a0) (order s)) ∧
    (cache s !! k = None → (Z.of_nat (size (cache s)) < cap)%Z →
       order s' = length (heap s) :: order s).
Proof.
  intros Hpos. destruct (session_Inv cap ops) as (s & c & es & Hrun & Hcap & HInv).
  destruct (put_spec _ _ k v HInv) as (s' & c' & Hrun' & _ & _ & _ & _ & _ & HInv' & _).
  pose proof (inv_linked _ _ HInv) as HL. pose proof (inv_indexed _ _ HInv) as HI.
  destruct (model_put_positive (capacity s) (length (heap s)) k v es ltac:(lia))
    as [rest Hrest].
  rewrite Hrest in HInv'. pose proof (inv_linked _ _ HInv') as HL'.
  assert (Entry (length (heap s)) k v ∈ Entry (length (heap s)) k v :: rest) as Hin
    by left.
  exists s, c, s', c'. split; [done|]. split; [done|].
  rewrite (order_Linked _ _ HL'), (order_Linked _ _ HL). split_and!.
  - apply (Indexed_lookup _ _ _ (inv_indexed _ _ HInv') Hin).
  - apply (linked_nodes _ _ HL' _ Hin).
  - apply (linked_nodes _ _ HL' _ Hin).
  - done.
  - intros a0 Hc.
    destruct (model_put_present s es k v a0 (length (heap s)) HInv Hc) as [_ Hput].
    rewrite Hput in Hrest. injection Hrest as <-.
    apply HI in Hc as [v0 Hv0]. apply list_elem_of_split in Hv0 as (es1 & es2 & ->).
    pose proof (Linked_addrs_NoDup _ _ HL) as Hnd.
    rewrite without_split by (done || apply HI).
    rewrite fmap_app, fmap_cons in Hnd. cbn [eaddr] in Hnd.
    assert (a0 < length (heap s)) as Hlt.
    { apply (path_lt s _ a0 HL). unfold path. rewrite fmap_app, fmap_cons. set_solver. }
    rewrite fmap_cons, !fmap_app, fmap_cons. cbn [eaddr].
    rewrite filter_ne_middle by done. split; [|done].
    apply NoDup_app in Hnd as (_ & Hdisj & Hnd2). apply NoDup_cons in Hnd2 as [Hn2 _].
    rewrite not_elem_of_cons, elem_of_app. split; [lia|].
    intros [H1|H2]; [apply (Hdisj _ H1); left|by apply Hn2].
  - intros Hc Hroom.
    pose proof (proj1 (Indexed_None _ _ k HI) Hc) as Hnin.
    rewrite (Indexed_size _ _ HI) in Hroom.
    unfold model_put in Hrest. cbv zeta in Hrest.
    rewrite (without_notin _ _ Hnin) in Hrest.
    destruct (Z.gtb_spec (Z.of_nat (length (Entry (length (heap s)) k v :: es)))
                (capacity s)) as [Hgt|_]; [simpl in Hgt; lia|].
    by injection Hrest as <-.
Qed.

Lemma put_links_first_witness :
  (0 < 3)%Z ∧
  ∃ s c s' c', session 3 [Put 1 10; Put 2 20] = Return tt s c ∧
    put 1 11 s = Return tt s' c' ∧
    order s = [3; 2] ∧ cache s !! 1%Z = Some 2 ∧
    cache s' !! 1%Z = Some 4 ∧ order s' = [4; 3] ∧
    val <$> heap s' !! 4 = Some 11%Z.
Proof.
  split; [lia|].
  destruct (put_links_first 3 [Put 1 10; Put 2 20] 1 11 ltac:(lia))
    as (s & c & s' & c' & Hrun & Hput & Hc' & _ & Hv' & _ & Hold & _).
  assert (cache s !! 1%Z = Some 2 ∧ order s = [3; 2] ∧ length (heap s) = 4)
    as (Hc & Ho & Hlen).
  { vm_compute in Hrun. injection Hrun as <- _. vm_compute. auto. }
  destruct (Hold 2 Hc) as [_ Hord]. rewrite Hlen in *.
  exists s, c, s', c'. split_and!; try done.
  rewrite Hord, Ho. reflexivity.
Defined.

(** ** Walking the list backwards *)

Lemma walk_back_chain (h : list Node) (stop : addr) (l : list addr) (a0 : addr) fuel :
  chain h (stop :: l ++ [a0]) → stop ∉ l → length l ≤ fuel →
  walk_back fuel h stop (default None (prev_at h a0)) = reverse l.
Proof.
  revert a0 fuel. induction l as [|a l IH] using rev_ind; intros a0 fuel Hc Hstop Hlen.
  - simpl in Hc. destruct Hc as [[_ ->] _]. simpl.
    destruct fuel; [done|]. simpl. by rewrite decide_True.
  - rewrite <-app_assoc in Hc. simpl in Hc.
    apply (chain_app h (stop :: l) a [a0]) in Hc as [Hc Hl].
    apply chain_cons in Hl as [[_ Hp] _]. rewrite Hp. simpl.
    rewrite not_elem_of_app, list_elem_of_singleton in Hstop. destruct Hstop as [Hs Hne].
    rewrite length_app in Hlen. simpl in Hlen.
    destruct fuel as [|fuel]; [lia|]. simpl.
    rewrite decide_False by done. rewrite reverse_snoc. f_equal.
    apply IH; [done|done|lia].
Qed.

Lemma Linked_length s es : Linked s es → length es ≤ length (heap s).
Proof.
  intros HL.
  assert (eaddr <$> es ⊆+ seq 0 (length (heap s))) as Hsub.
  { apply NoDup_submseteq; [by apply (Linked_addrs_NoDup s)|].
    intros a Ha. apply elem_of_seq. split; [lia|]. simpl.
    apply (path_lt s es); [done|]. unfold path. set_solver. }
  apply submseteq_length in Hsub. by rewrite length_seq, length_fmap in Hsub.
Qed.

(** X8. The [prev] pointers mirror the [next] pointers: after any calls,
    walking [prev] from the tail dummy back to the head dummy meets the nodes
    that walking [next] from the head meets, in the opposite order. *)
Theorem order_back_reverse (cap : Z) (ops : list Op) :
  ∃ s c, session cap ops = Return tt s c ∧ order_back s = reverse (order s).
Proof.
  destruct (session_Inv cap ops) as (s & c & es & Hrun & _ & HInv).
  pose proof (inv_linked _ _ HInv) as HL.
  exists s, c. split; [done|]. rewrite (order_Linked _ _ HL). unfold order_back.
  apply walk_back_chain.
  - apply HL.
  - by destruct (Linked_dummies _ _ HL) as (_ & ? & _).
  - rewrite length_fmap. by apply Linked_length.
Qed.

(** ** What the methods never touch *)

Section frame.
Implicit Types (s : LRUCache) (a : addr).

Lemma Frame_refl s : Frame s s.
Proof. unfold Frame. split_and!; done. Qed.

Lemma Frame_trans s1 s2 s3 : Frame s1 s2 → Frame s2 s3 → Frame s1 s3.
Proof.
  intros (Hc1 & Hh1 & Ht1 & Hl1 & Hf1) (Hc2 & Hh2 & Ht2 & Hl2 & Hf2).
  unfold Frame. split_and!; [congruence..|lia|].
  intros a Ha. destruct (Hf1 a Ha) as [Hk1 Hv1].
  destruct (Hf2 a ltac:(lia)) as [Hk2 Hv2]. split; congruence.
Qed.

Lemma frames_ret {A} (x : A) : frames (ret x).
Proof. intros s r s' c [= _ <- _]. apply Frame_refl. Qed.

Lemma frames_bind {A B} (m : M A) (f : A → M B) :
  frames m → (∀ x, frames (f x)) → frames (bind m f).
Proof.
  intros Hm Hf s r s' c. unfold bind, continue.
  destruct (m s) as [x s1 c1|] eqn:H1; [|done].
  destruct (f x s1) as [y s2 c2|] eqn:H2; [|done].
  intros [= _ <- _]. eapply Frame_trans; [by eapply Hm|by eapply Hf].
Qed.

Lemma frames_if {A} (b : bool) (m1 m2 : M A) :
  frames m1 → frames m2 → frames (if b then m1 else m2).
Proof. by destruct b. Qed.

Lemma frames_load {A} (f : Node → A) r : frames (load f r).
Proof.
  intros s x s' c. unfold load. destruct r; [|done].
  destruct (heap s !! _); [|done]. intros [= _ <- _]. apply Frame_refl.
Qed.

Lemma frames_store upd r :
  (∀ n, key (upd n) = key n) → (∀ n, val (upd n) = val n) → frames (store upd r).
Proof.
  intros Hk Hv s x s' c. unfold store. destruct r as [a|]; [|done].
  destruct (heap s !! a); [|done]. intros [= _ <- _].
  unfold Frame. cbn [with_heap capacity head tail heap].
  split_and!; [done..|by rewrite length_alter|].
  intros a' _. by rewrite !field_alter.
Qed.

Lemma frames_new_node k v : frames (new_node k v).
Proof.
  intros s x s' c [= _ <- _]. unfold Frame. cbn [with_heap capacity head tail heap].
  split_and!; [done..|rewrite length_app; lia|].
  intros a Ha. by rewrite lookup_app_l.
Qed.

Lemma frames_getitem k : frames (getitem k).
Proof.
  intros s x s' c. unfold getitem. destruct (cache s !! k); [|done].
  intros [= _ <- _]. apply Frame_refl.
Qed.

Lemma frames_delitem k : frames (delitem k).
Proof.
  intros s x s' c. unfold delitem. destruct (cache s !! k); [|done].
  intros [= _ <- _]. unfold Frame. split_and!; done.
Qed.

Local Ltac same_state := intros ? ? ? ? [= _ <- _]; unfold Frame; split_and!; done.

Lemma frames__remove r : frames (_remove r).
Proof.
  unfold _remove.
  apply frames_bind; [apply frames_load|intros ?].
  apply frames_bind; [apply frames_load|intros ?].
  apply frames_bind; [by apply frames_store|intros ?].
  by apply frames_store.
Qed.

Lemma frames__add r : frames (_add r).
Proof.
  unfold _add.
  apply frames_bind; [same_state|intros ?].
  apply frames_bind; [apply frames_load|intros ?].
  apply frames_bind; [same_state|intros ?].
  apply frames_bind; [by apply frames_store|intros ?].
  apply frames_bind; [same_state|intros ?].
  apply frames_bind; [by apply frames_store|intros ?].
  apply frames_bind; [by apply frames_store|intros ?].
  by apply frames_store.
Qed.

Lemma frames_get k : frames (get k).
Proof.
  unfold get. apply frames_bind; [same_state|intros found].
  apply frames_if; [|apply frames_ret].
  apply frames_bind; [apply frames_getitem|intros ?].
  apply frames_bind; [apply frames__remove|intros ?].
  apply frames_bind; [apply frames__add|intros ?].
  apply frames_load.
Qed.

Lemma frames_put k v : frames (put k v).
Proof.
  unfold put. apply frames_bind; [same_state|intros found].
  apply frames_bind.
  { apply frames_if; [|apply frames_ret].
    apply frames_bind; [apply frames_getitem|intros ?]. apply frames__remove. }
  intros _.
  apply frames_bind; [apply frames_new_node|intros node].
  apply frames_bind; [apply frames__add|intros ?].
  apply frames_bind; [same_state|intros ?].
  apply frames_bind; [same_state|intros n].
  apply frames_bind; [same_state|intros cap].
  apply frames_if; [|apply frames_ret].
  apply frames_bind; [same_state|intros ?].
  apply frames_bind; [apply frames_load|intros ?].
  apply frames_bind; [apply frames__remove|intros ?].
  apply frames_bind; [apply frames_load|intros ?].
  apply frames_delitem.
Qed.

Lemma frames_calls ops : frames (calls ops).
Proof.
  induction ops as [|op ops IH]; [apply frames_ret|].
  cbn [calls]. apply frames_bind; [|by intros _].
  destruct op as [k|k v]; cbn [call].
  - apply frames_bind; [apply frames_get|intros ?; apply frames_ret].
  - apply frames_bind; [apply frames_put|intros ?; apply frames_ret].
Qed.

End frame.

(** X9. Nodes are never rewritten: whatever calls follow, [capacity], [head]
    and [tail] stay what the constructor made them, and the [key] and [val] of
    a node stay what they were when it was made; only [prev] and [next] are
    ever assigned again. *)
Theorem nodes_never_change (cap : Z) (ops more : list Op) :
  ∃ s c s' c', session cap ops = Return tt s c ∧ calls more s = Return tt s' c' ∧
    capacity s' = cap ∧ head s' = 0 ∧ tail s' = 1 ∧
    ∀ a, a < length (heap s) →
         key <$> heap s' !! a = key <$> heap s !! a ∧
         val <$> heap s' !! a = val <$> heap s !! a.
Proof.
  destruct (session_spec cap ops) as (s & c & Hrun & Hcap & Hh & Ht & _ & HInv).
  destruct (calls_spec more _ _ HInv) as (s' & c' & Hrun' & _).
  destruct (frames_calls more _ _ _ _ Hrun') as (Hc' & Hh' & Ht' & _ & Hf).
  exists s, c, s', c'. split_and!; [done|done|congruence..|done].
Qed.

(** ** Which keys the cache holds *)

Section most_recent.
Implicit Types (k : Z) (u M : list Z) (es : list entry) (c : nat).

Lemma filter_ne_id k (l : list Z) : k ∉ l → filter (λ k', k' ≠ k) l = l.
Proof.
  induction l as [|x l IH]; [done|]. intros [Hne Hl]%not_elem_of_cons.
  rewrite filter_cons_True by (intros ->; by apply Hne). by rewrite IH.
Qed.

Lemma mru_snoc u k : mru (u ++ [k]) = k :: filter (λ k', k' ≠ k) (mru u).
Proof. unfold mru. by rewrite foldl_app. Qed.

Lemma mru_NoDup u : NoDup (mru u).
Proof.
  induction u as [|k u IH] using rev_ind; [constructor|].
  rewrite mru_snoc. apply NoDup_cons. split.
  - by intros [Hne _]%list_elem_of_filter.
  - by apply NoDup_filter.
Qed.

Lemma mru_distinct u : NoDup u → mru u = reverse u.
Proof.
  induction u as [|k u IH] using rev_ind; [done|]. intros Hnd.
  apply NoDup_app in Hnd as (Hu & Hdisj & _).
  rewrite mru_snoc, reverse_snoc, IH by done.
  rewrite filter_ne_id; [done|]. rewrite elem_of_reverse.
  intros Hin. apply (Hdisj _ Hin). left.
Qed.

Lemma keys_without k es :
  ekey <$> without k es = filter (λ k', k' ≠ k) (ekey <$> es).
Proof.
  unfold without. induction es as [|e es IH]; [done|]. rewrite fmap_cons.
  destruct (decide (ekey e ≠ k)).
  - rewrite !filter_cons_True by done. by rewrite fmap_cons, IH.
  - by rewrite !filter_cons_False by done.
Qed.

Lemma keys_removelast es : ekey <$> removelast es = removelast (ekey <$> es).
Proof.
  destruct es as [|e es]; [done|]. destruct (cons_snoc e es) as (l & e' & ->).
  rewrite removelast_last, fmap_app. change (ekey <$> [e']) with [ekey e'].
  by rewrite removelast_last.
Qed.

Lemma removelast_cons_cons (x : Z) (l : list Z) :
  l ≠ [] → removelast (x :: l) = x :: removelast l.
Proof. by destruct l. Qed.

Lemma elem_of_take_1 k n (l : list Z) : k ∈ take n l → k ∈ l.
Proof. intros Hin. eapply elem_of_sublist; [done|apply sublist_take]. Qed.

Lemma take_filter_notin k M c :
  k ∉ take c M → take c (filter (λ k', k' ≠ k) M) = take c M.
Proof.
  revert c. induction M as [|x M IH]; intros c; [done|].
  destruct c as [|c]; [done|]. cbn [take]. intros [Hne Hk]%not_elem_of_cons.
  rewrite filter_cons_True by (intros ->; by apply Hne). cbn [take]. by rewrite IH.
Qed.

Lemma filter_take_in k M c :
  NoDup M → k ∈ take c M →
  filter (λ k', k' ≠ k) (take c M) = take (c - 1) (filter (λ k', k' ≠ k) M).
Proof.
  revert c. induction M as [|x M IH]; intros c Hnd Hin.
  - rewrite take_nil in Hin. by apply elem_of_nil in Hin.
  - destruct c as [|c]; [by apply elem_of_nil in Hin|]. cbn [take] in *.
    apply NoDup_cons in Hnd as [Hx Hnd]. replace (S c - 1) with c by lia.
    destruct (decide (x = k)) as [->|Hne].
    + rewrite !filter_cons_False by (intros H; by apply H).
      rewrite (filter_ne_id k M) by done.
      apply filter_ne_id. intros Hin'. apply Hx. by apply elem_of_take_1 in Hin'.
    + rewrite !filter_cons_True by done.
      apply elem_of_cons in Hin as [->|Hin]; [done|].
      destruct c as [|c]; [rewrite take_0 in Hin; by apply elem_of_nil in Hin|].
      rewrite (IH (S c)) by done. replace (S c - 1) with c by lia. done.
Qed.

Lemma removelast_take (M : list Z) c : c < length M → removelast (take (S c) M) = take c M.
Proof.
  intros Hlt. destruct (lookup_lt_is_Some_2 M c Hlt) as [x Hx].
  by rewrite (take_S_r _ _ _ Hx), removelast_last.
Qed.

(** [put] keeps the list equal to the first [capacity] keys of the recency
    order. *)
Lemma keys_model_put cap a k v es u :
  ekey <$> es = take (Z.to_nat cap) (mru u) →
  ekey <$> model_put cap a k v es = take (Z.to_nat cap) (mru (u ++ [k])).
Proof.
  intros HM. rewrite mru_snoc.
  assert (ekey <$> (Entry a k v :: without k es) =
          k :: filter (λ k', k' ≠ k) (take (Z.to_nat cap) (mru u))) as Hkeys.
  { by rewrite fmap_cons, keys_without, HM. }
  assert (length (Entry a k v :: without k es) =
          S (length (filter (λ k', k' ≠ k) (take (Z.to_nat cap) (mru u))))) as Hlen.
  { by rewrite <-(length_fmap ekey), Hkeys. }
  unfold model_put. cbv zeta. rewrite Hlen.
  destruct (decide (k ∈ take (Z.to_nat cap) (mru u))) as [Hin|Hnin].
  - rewrite (filter_take_in k _ _ (mru_NoDup u) Hin) in Hkeys |- *.
    destruct (Z.to_nat cap) as [|c] eqn:Hc; [by apply elem_of_nil in Hin|].
    replace (S c - 1) with c in * by lia.
    pose proof (length_take_le_bound := length_take (filter (λ k', k' ≠ k) (mru u)) c).
    destruct (Z.gtb_spec (Z.of_nat (S (length (take c (filter (λ k', k' ≠ k) (mru u))))))
                cap) as [Hgt|_]; [lia|].
    by rewrite Hkeys.
  - rewrite (filter_ne_id k _ Hnin) in Hkeys |- *.
    pose proof (length_take (mru u) (Z.to_nat cap)) as Hlt.
    destruct (Z.gtb_spec (Z.of_nat (S (length (take (Z.to_nat cap) (mru u))))) cap)
      as [Hgt|Hle].
    + rewrite keys_removelast, Hkeys.
      destruct (Z.to_nat cap) as [|c] eqn:Hc; [done|].
      assert (c < length (mru u)) as Hc' by lia.
      rewrite removelast_cons_cons.
      2:{ intros Hnil. rewrite Hnil in Hlt. cbn [length] in Hlt. lia. }
      rewrite removelast_take by done. cbn [take]. f_equal.
      pose proof (take_filter_notin k (mru u) (S c) Hnin) as Heq.
      apply (f_equal (take c)) in Heq. rewrite !take_take in Heq.
      by replace (c `min` S c) with c in Heq by lia.
    + rewrite Hkeys. assert (length (mru u) < Z.to_nat cap) as Hshort by lia.
      rewrite (take_ge (mru u)) in Hnin |- * by lia.
      rewrite (filter_ne_id k _ Hnin). symmetry. apply take_ge. simpl. lia.
Qed.

Lemma keys_model_get k es u c :
  ekey <$> es = take c (mru u) →
  ekey <$> model_get k es =
    take c (mru (u ++ match filter (λ e, ekey e = k) es with
                      | [] => []
                      | _ :: _ => [k]
                      end)).
Proof.
  intros HM. unfold model_get.
  destruct (filter (λ e, ekey e = k) es) as [|e l] eqn:Hf; [by rewrite app_nil_r|].
  assert (e ∈ filter (λ e, ekey e = k) es) as He by (rewrite Hf; left).
  apply list_elem_of_filter in He as [Hk He].
  assert (k ∈ take c (mru u)) as Hin.
  { rewrite <-HM, <-Hk. by apply list_elem_of_fmap_2. }
  rewrite mru_snoc, fmap_cons, keys_without, HM, Hk.
  rewrite (filter_take_in k _ _ (mru_NoDup u) Hin).
  destruct c as [|c]; [by apply elem_of_nil in Hin|].
  by replace (S c - 1) with c by lia.
Qed.

Lemma calls_mru ops s es u :
  Inv s es → ekey <$> es = take (Z.to_nat (capacity s)) (mru u) →
  ∃ s' c es', calls ops s = Return tt s' c ∧ capacity s' = capacity s ∧ Inv s' es' ∧
              ekey <$> es' = take (Z.to_nat (capacity s)) (mru (u ++ trace ops s)).
Proof.
  revert s es u. induction ops as [|op ops IH]; intros s es u HInv HM.
  - exists s, 0, es. rewrite app_nil_r. split_and!; done.
  - destruct (call_spec _ _ op HInv) as (r & s1 & c1 & Hrun1 & Hcap1 & _ & _ & _ & HInv1).
    assert (ekey <$> (model_call (capacity s) (length (heap s), es) op).2 =
            take (Z.to_nat (capacity s1)) (mru (u ++ used op s))) as HM1.
    { rewrite Hcap1. destruct op as [k|k v]; cbn [model_call fst snd].
      - rewrite (used_get _ _ _ HInv). by apply keys_model_get.
      - by apply keys_model_put. }
    destruct (IH _ _ _ HInv1 HM1) as (s2 & c2 & es2 & Hrun2 & Hcap2 & HInv2 & HM2).
    exists s2, (c1 + c2), es2. split_and!.
    + cbn [calls]. rewrite (bind_Return _ _ _ _ _ _ Hrun1). by rewrite Hrun2.
    + congruence.
    + done.
    + cbn [trace]. rewrite Hrun1, app_assoc. by rewrite <-Hcap1.
Qed.

Lemma session_mru cap ops :
  ∃ s c es, session cap ops = Return tt s c ∧ Inv s es ∧
            ekey <$> es = take (Z.to_nat cap) (mru (uses cap ops)).
Proof.
  destruct (calls_mru ops _ _ [] (__init___Inv cap)) as (s & c & es & Hrun & _ & HInv & HM).
  { symmetry. apply take_nil. }
  exists s, (8 + c), es. unfold session, uses. rewrite __init___run. cbn [continue].
  rewrite Hrun. split_and!; done.
Qed.

Lemma order_keys_Linked s es : Linked s es → order_keys s = Some <$> (ekey <$> es).
Proof.
  intros HL. unfold order_keys. rewrite (order_Linked _ _ HL), <-!list_fmap_compose.
  apply list_fmap_ext. intros i e He. simpl.
  apply (linked_nodes _ _ HL). by eapply list_elem_of_lookup_2.
Qed.

Lemma trace_puts (kvs : list (Z * Z)) s es :
  Inv s es → trace ((λ kv, Put kv.1 kv.2) <$> kvs) s = kvs.*1.
Proof.
  revert s es. induction kvs as [|[k v] kvs IH]; intros s es HInv; [done|].
  cbn [fmap list_fmap trace used fst snd app].
  destruct (call_spec _ _ (Put k v) HInv) as (r & s1 & c1 & Hrun1 & _ & _ & _ & _ & HInv1).
  rewrite Hrun1. f_equal. by apply (IH _ _ HInv1).
Qed.

Lemma holds_most_recent_aux (cap : Z) (kvs : list (Z * Z)) :
  NoDup kvs.*1 →
  ∃ s c, session cap ((λ kv, Put kv.1 kv.2) <$> kvs) = Return tt s c ∧
    ∀ k, is_Some (cache s !! k) ↔ k ∈ take (Z.to_nat cap) (reverse kvs.*1).
Proof.
  intros Hnd.
  destruct (session_mru cap ((λ kv, Put kv.1 kv.2) <$> kvs))
    as (s & c & es & Hrun & HInv & HM).
  assert (uses cap ((λ kv, Put kv.1 kv.2) <$> kvs) = kvs.*1) as Hu.
  { unfold uses. rewrite __init___run. by apply (trace_puts kvs _ [] (__init___Inv cap)). }
  rewrite Hu, (mru_distinct _ Hnd) in HM.
  exists s, c. split; [done|]. intros k. rewrite <-HM, <-not_eq_None_Some.
  rewrite (Indexed_None _ _ k (inv_indexed _ _ HInv)).
  destruct (decide (k ∈ ekey <$> es)); tauto.
Qed.

End most_recent.

(** X10. The cache holds the most recently used keys: after any calls on a
    cache of any capacity, the keys of the list, from the head dummy on, are
    the first [capacity] distinct keys of the trace of uses read from the most
    recent backwards (none when the capacity is not positive), and these are
    exactly the keys of the dict; so the dict holds [capacity] keys as soon as
    that many distinct keys have been used, and all the keys used before. *)
Theorem holds_most_recent (cap : Z) (ops : list Op) :
  ∃ s c, session cap ops = Return tt s c ∧
    order_keys s = Some <$> take (Z.to_nat cap) (mru (uses cap ops)) ∧
    size (cache s) = Z.to_nat cap `min` length (mru (uses cap ops)) ∧
    ∀ k, is_Some (cache s !! k) ↔ k ∈ take (Z.to_nat cap) (mru (uses cap ops)).
Proof.
  destruct (session_mru cap ops) as (s & c & es & Hrun & HInv & HM).
  exists s, c. split; [done|]. split_and!.
  - by rewrite (order_keys_Linked _ _ (inv_linked _ _ HInv)), HM.
  - by rewrite (Indexed_size _ _ (inv_indexed _ _ HInv)), <-(length_fmap ekey), HM,
      length_take.
  - intros k. rewrite <-HM, <-not_eq_None_Some.
    rewrite (Indexed_None _ _ k (inv_indexed _ _ HInv)).
    destruct (decide (k ∈ ekey <$> es)); tauto.
Qed.

(** X11. Pure insertion is first in, first out: after [put] of pairwise
    distinct keys on a fresh cache, the dict holds exactly the last [capacity]
    of them; in particular one key more than the capacity evicts the first key
    inserted and keeps all the others. *)
Theorem pure_insertion (cap : Z) (kvs : list (Z * Z)) :
  NoDup kvs.*1 →
  ∃ s c, session cap ((λ kv, Put kv.1 kv.2) <$> kvs) = Return tt s c ∧
    (∀ k, is_Some (cache s !! k) ↔ k ∈ take (Z.to_nat cap) (reverse kvs.*1)) ∧
    (∀ k0 rest, kvs.*1 = k0 :: rest → length rest = Z.to_nat cap →
       cache s !! k0 = None ∧ ∀ k, k ∈ rest → is_Some (cache s !! k)).
Proof.
  intros Hnd.
  destruct (holds_most_recent_aux cap kvs Hnd) as (s & c & Hrun & Hkeys).
  exists s, c. split; [done|]. split; [done|].
  intros k0 rest Heq Hlen. rewrite Heq in Hnd, Hkeys.
  apply NoDup_cons in Hnd as [Hk0 _].
  rewrite reverse_cons, <-Hlen, <-length_reverse in Hkeys.
  rewrite take_app_length in Hkeys. split.
  - apply eq_None_not_Some. rewrite Hkeys, elem_of_reverse. done.
  - intros k Hk. apply Hkeys. by rewrite elem_of_reverse.
Qed.

Lemma holds_most_recent_witness :
  ∃ s c, session 2 [Put 1 10; Put 2 20; Get 1; Get 5; Put 3 30] = Return tt s c ∧
         uses 2 [Put 1 10; Put 2 20; Get 1; Get 5; Put 3 30] = [1; 2; 1; 3]%Z ∧
         order_keys s = [Some 3; Some 1]%Z.
Proof.
  destruct (holds_most_recent 2 [Put 1 10; Put 2 20; Get 1; Get 5; Put 3 30])
    as (s & c & Hrun & Hkeys & _ & _).
  exists s, c. split; [exact Hrun|].
  assert (uses 2 [Put 1 10; Put 2 20; Get 1; Get 5; Put 3 30] = [1; 2; 1; 3]%Z) as Hu
    by (vm_compute; reflexivity).
  split; [exact Hu|]. rewrite Hkeys, Hu. reflexivity.
Defined.

Lemma pure_insertion_witness :
  NoDup [1; 2; 3]%Z ∧
  ∃ s c, session 2 [Put 1 10; Put 2 20; Put 3 30] = Return tt s c ∧
         cache s !! 1%Z = None ∧ is_Some (cache s !! 2%Z) ∧ is_Some (cache s !! 3%Z).
Proof.
  assert (NoDup [1; 2; 3]%Z) as Hnd.
  { repeat (apply NoDup_cons_2;
              [rewrite ?elem_of_cons, elem_of_nil; lia|]). apply NoDup_nil_2. }
  split; [exact Hnd|].
  destruct (pure_insertion 2 [(1, 10); (2, 20); (3, 30)]%Z Hnd) as (s & c & Hrun & _ & H).
  destruct (H 1%Z [2; 3]%Z eq_refl eq_refl) as [H1 H23].
  exists s, c. split; [exact Hrun|]. split; [exact H1|].
  split; apply H23; [left|right; left].
Defined.

(** ** The dummies *)

Section dummies.
Implicit Types (s : LRUCache) (e : entry) (es : list entry) (a : addr) (k v : Z).

Lemma unlink_Ends (h : list Node) (hd tl pa a na : addr) :
  link h pa a → link h a na →
  prev_at h hd = Some None → next_at h tl = Some None →
  prev_at (unlink pa na h) hd = Some None ∧ next_at (unlink pa na h) tl = Some None.
Proof.
  intros [Hpa _] [_ Hna] Hhd Htl.
  assert (na ≠ hd) by (intros ->; congruence).
  assert (pa ≠ tl) by (intros ->; congruence).
  unfold unlink. split.
  - by rewrite prev_at_set_prev_ne, prev_at_set_next.
  - by rewrite next_at_set_prev, next_at_set_next_ne.
Qed.

Lemma push_Ends (h : list Node) (hd tl a n1 : addr) :
  link h hd n1 → hd ≠ tl → a ≠ hd → a ≠ tl →
  prev_at h hd = Some None → next_at h tl = Some None →
  prev_at (push hd a n1 h) hd = Some None ∧ next_at (push hd a n1 h) tl = Some None.
Proof.
  intros [_ Hn1] Hne Hahd Hatl Hhd Htl.
  assert (n1 ≠ hd) by (intros ->; congruence).
  unfold push. split.
  - by rewrite prev_at_set_prev_ne, prev_at_set_next, prev_at_set_prev_ne,
      prev_at_set_next.
  - by rewrite next_at_set_prev, next_at_set_next_ne, next_at_set_prev,
      next_at_set_next_ne.
Qed.

Lemma _remove_Ends s es1 e es2 s' c :
  Linked s (es1 ++ e :: es2) → Ends s →
  _remove (Some (eaddr e)) s = Return tt s' c → Ends s'.
Proof.
  intros HL [Hhd Htl] Hrun. pose proof (linked_chain _ _ HL) as Hc.
  destruct (split_around (head s) (tail s) (eaddr e) (eaddr <$> es1) (eaddr <$> es2))
    as (p & pa & na & q & Hfull & _).
  unfold path in Hc. rewrite fmap_app, fmap_cons, Hfull in Hc.
  apply chain_app in Hc as [_ Hc].
  apply chain_cons in Hc as [Hpa Hc]. apply chain_cons in Hc as [Hna _].
  destruct (link_lt _ _ _ Hpa) as [Hlt_pa _]. destruct (link_lt _ _ _ Hna) as [_ Hlt_na].
  rewrite (_remove_run s (eaddr e) pa na) in Hrun; [|apply Hpa|apply Hna|done|done].
  injection Hrun as <- _. unfold Ends. cbn [with_heap heap head tail].
  by apply (unlink_Ends _ _ _ pa (eaddr e) na).
Qed.

Lemma _add_Ends s es a s' c :
  Linked s es → a ∉ path s es → a < length (heap s) → Ends s →
  _add (Some a) s = Return tt s' c → Ends s'.
Proof.
  intros HL Ha Hlt [Hhd Htl] Hrun. pose proof (linked_chain _ _ HL) as Hc.
  destruct (Linked_dummies _ _ HL) as (Hne & _ & _).
  assert (∃ n1 q, (eaddr <$> es) ++ [tail s] = n1 :: q) as (n1 & q & Hq).
  { destruct es as [|x l2]; simpl; eauto. }
  unfold path in Hc, Ha. rewrite Hq in Hc. apply chain_cons in Hc as [Hl _].
  destruct (link_lt _ _ _ Hl) as [_ Hlt_n1].
  rewrite (_add_run s a n1) in Hrun; [|apply Hl|done|done].
  injection Hrun as <- _. unfold Ends. cbn [with_heap heap head tail].
  apply push_Ends; [done|done| | |done|done].
  - intros ->. apply Ha. left.
  - intros ->. apply Ha. right. apply elem_of_app. right. left.
Qed.

Lemma get_Ends s es k v s' c :
  Inv s es → Ends s → get k s = Return v s' c → Ends s'.
Proof.
  intros HInv HE Hget. destruct (cache s !! k) as [a|] eqn:Hc.
  - pose proof (inv_linked _ _ HInv) as HL.
    apply (indexed_cache _ _ (inv_indexed _ _ HInv)) in Hc as Hin.
    destruct Hin as [v0 Hin]. apply list_elem_of_split in Hin as (es1 & es2 & ->).
    destruct (detach _ _ _ _ HL) as (h1 & Hrun1 & Hlen1 & _ & _ & HL1).
    pose proof (_remove_Ends _ _ _ _ _ _ HL HE Hrun1) as HE1. cbn [eaddr] in *.
    assert (a ∉ path (with_heap h1 s) (es1 ++ es2)) as Hnin.
    { pose proof (linked_nodup _ _ HL) as Hnd. unfold path in *.
      rewrite fmap_app, fmap_cons in Hnd. rewrite fmap_app.
      by apply NoDup_middle_notin. }
    assert (a < length (heap (with_heap h1 s))) as Hlt.
    { cbn [with_heap heap]. rewrite Hlen1. apply (path_lt s _ a HL).
      unfold path. rewrite fmap_app, fmap_cons. set_solver. }
    unfold get in Hget. rewrite (bind_Return _ _ s true s 1) in Hget.
    2:{ unfold contains. rewrite Hc. by rewrite bool_decide_true by eauto. }
    rewrite (bind_Return _ _ s a s 1) in Hget by (unfold getitem; by rewrite Hc).
    rewrite (bind_Return _ _ _ _ _ _ Hrun1) in Hget.
    destruct (_add (Some a) (with_heap h1 s)) as [[] s2 c2|] eqn:Hrun2;
      unfold bind, continue in Hget; rewrite Hrun2 in Hget; [|done].
    pose proof (_add_Ends _ _ _ _ _ HL1 Hnin Hlt HE1 Hrun2) as HE2.
    unfold load in Hget. destruct (heap s2 !! a); [|done].
    by injection Hget as _ <- _.
  - rewrite (get_miss _ _ Hc) in Hget. by injection Hget as _ <- _.
Qed.

Lemma evict_Ends s es e s' c :
  Linked s (es ++ [e]) → Indexed s (es ++ [e]) → Ends s →
  evict s = Return tt s' c → Ends s'.
Proof.
  intros HL HI HE Hev.
  assert (e ∈ es ++ [e]) as Hin by (apply elem_of_app; right; left).
  pose proof (tail_prev _ _ _ HL) as Hp.
  pose proof (Indexed_lookup _ _ _ HI Hin) as Hc.
  destruct (linked_nodes _ _ HL e Hin) as [Hke _].
  destruct (detach _ _ _ _ HL) as (h1 & Hrun1 & _ & Hk1 & _ & _).
  pose proof (_remove_Ends _ _ _ _ _ _ HL HE Hrun1) as HE1.
  unfold evict in Hev. rewrite (bind_Return _ _ s (Some (tail s)) s 1) in Hev by done.
  rewrite (bind_Return _ _ s (Some (eaddr e)) s 1) in Hev by (by apply load_run).
  rewrite (bind_Return _ _ _ _ _ _ Hrun1) in Hev.
  rewrite (bind_Return _ _ (with_heap h1 s) (ekey e) (with_heap h1 s) 1) in Hev.
  2:{ apply load_run. cbn [with_heap heap]. by rewrite Hk1. }
  unfold delitem in Hev. cbn [with_heap cache] in Hev. rewrite Hc in Hev.
  injection Hev as <- _. exact HE1.
Qed.

Lemma put_tail_Ends s es k v s' c :
  Linked s (without k es) → NoDup (ekey <$> es) →
  (∀ k' a', k' ≠ k → cache s !! k' = Some a' ↔ ∃ v', Entry a' k' v' ∈ without k es) →
  Ends s → put_tail k v s = Return tt s' c → Ends s'.
Proof.
  intros HL Hnd Hc HE Hput.
  set (a := length (heap s)). set (n := mkNode k v None None).
  set (s1 := with_heap (heap s ++ [n]) s).
  destruct (Linked_alloc s _ n HL) as [HL1 Hfresh]. fold s1 in HL1.
  assert (Ends s1) as HE1.
  { destruct HE as [Hhd Htl]. unfold Ends, s1, next_at, prev_at in *.
    cbn [with_heap heap head tail].
    rewrite !lookup_app_l; [done|..].
    - apply lookup_lt_is_Some. destruct (heap s !! tail s); [eauto|done].
    - apply lookup_lt_is_Some. destruct (heap s !! head s); [eauto|done]. }
  assert (a < length (heap s1)) as Hlt.
  { unfold s1, a. cbn [with_heap heap]. rewrite length_app. simpl. lia. }
  destruct (attach s1 (without k es) a k v HL1) as (h2 & Hrun2 & _ & _ & _ & HL2).
  { done. }
  { unfold s1, a. cbn [with_heap heap]. by rewrite list_lookup_middle. }
  { unfold s1, a. cbn [with_heap heap]. by rewrite list_lookup_middle. }
  pose proof (_add_Ends _ _ _ _ _ HL1 Hfresh Hlt HE1 Hrun2) as HE2.
  set (s3 := with_cache (<[k := a]> (cache s)) (with_heap h2 s1)).
  set (es' := Entry a k v :: without k es).
  assert (Linked s3 es') as HL3 by (eapply Linked_ext; [..|exact HL2]; done).
  assert (Indexed s3 es') as HI3.
  { eapply Indexed_ext; [|by apply (Indexed_insert s es k a v)]. done. }
  assert (Ends s3) as HE3 by exact HE2.
  unfold put_tail in Hput. rewrite (bind_Return _ _ s a s1 1) in Hput by done.
  rewrite (bind_Return _ _ _ _ _ _ Hrun2) in Hput.
  rewrite (bind_Return _ _ (with_heap h2 s1) tt s3 1) in Hput by done.
  rewrite (bind_Return _ _ s3 (Z.of_nat (length es')) s3 1) in Hput.
  2:{ unfold len. by rewrite (Indexed_size _ _ HI3). }
  rewrite (bind_Return _ _ s3 (capacity s) s3 1) in Hput by done.
  destruct (Z.of_nat (length es') >? capacity s)%Z.
  - destruct (cons_snoc (Entry a k v) (without k es)) as (l & e & Hes').
    fold es' in Hes'. rewrite Hes' in HL3, HI3.
    destruct (evict s3) as [[] s4 c4|] eqn:Hev; [|done].
    injection Hput as <- _. by apply (evict_Ends _ _ _ _ _ HL3 HI3 HE3 Hev).
  - unfold ret in Hput. by injection Hput as <- _.
Qed.

Lemma put_Ends s es k v s' c :
  Inv s es → Ends s → put k v s = Return tt s' c → Ends s'.
Proof.
  intros [HL HI Hb] HE Hput. rewrite put_unfold in Hput.
  destruct (cache s !! k) as [a|] eqn:Hc.
  - apply HI in Hc as Hin. destruct Hin as [v0 Hin].
    apply list_elem_of_split in Hin as (es1 & es2 & ->).
    destruct (detach _ _ _ _ HL) as (h1 & Hrun1 & _ & _ & _ & HL1).
    pose proof (_remove_Ends _ _ _ _ _ _ HL HE Hrun1) as HE1.
    cbn [eaddr] in Hrun1.
    assert (without k (es1 ++ Entry a k v0 :: es2) = es1 ++ es2) as Hw.
    { apply without_split; [apply HI|done]. }
    rewrite (bind_Return _ _ s true s 1) in Hput.
    2:{ unfold contains. rewrite Hc. by rewrite bool_decide_true by eauto. }
    erewrite (bind_Return _ _ s tt (with_heap h1 s) 5) in Hput.
    2:{ rewrite (bind_Return _ _ s a s 1); [by rewrite Hrun1|].
        unfold getitem. by rewrite Hc. }
    destruct (put_tail k v (with_heap h1 s)) as [[] s2 c2|] eqn:Htail; [|done].
    injection Hput as <- _.
    apply (put_tail_Ends (with_heap h1 s) (es1 ++ Entry a k v0 :: es2) k v s2 c2);
      [by rewrite Hw|apply HI| |done|done].
    intros k' a' Hne. cbn [with_heap cache]. rewrite (indexed_cache _ _ HI).
    unfold ekey. setoid_rewrite elem_of_without. naive_solver.
  - pose proof (proj1 (Indexed_None _ _ k HI) Hc) as Hnin.
    pose proof (without_notin _ _ Hnin) as Hw.
    rewrite (bind_Return _ _ s false s 1) in Hput.
    2:{ unfold contains. rewrite Hc. rewrite bool_decide_false; [done|]. by intros [? ?]. }
    rewrite (bind_Return _ _ s tt s 0) in Hput by done.
    destruct (put_tail k v s) as [[] s2 c2|] eqn:Htail; [|done].
    injection Hput as <- _.
    apply (put_tail_Ends s es k v s2 c2); [by rewrite Hw|apply HI| |done|done].
    intros k' a' Hne. rewrite Hw. apply HI.
Qed.

Lemma calls_Ends ops s es s' c :
  Inv s es → Ends s → calls ops s = Return tt s' c → Ends s'.
Proof.
  revert s es c. induction ops as [|op ops IH]; intros s es c HInv HE Hrun.
  - by injection Hrun as <- _.
  - destruct (call_spec _ _ op HInv) as (r & s1 & c1 & Hrun1 & _ & _ & _ & _ & HInv1).
    cbn [calls] in Hrun. rewrite (bind_Return _ _ _ _ _ _ Hrun1) in Hrun.
    destruct (calls ops s1) as [[] s2 c2|] eqn:Hrest; [|done].
    injection Hrun as <- _. apply (IH s1 _ c2 HInv1); [|done].
    destruct op as [k|k v]; cbn [call] in Hrun1; unfold bind, continue, ret in Hrun1.
    + destruct (get k s) as [v s0 c0|] eqn:Hget; [|done].
      injection Hrun1 as _ <- _. by apply (get_Ends _ _ _ _ _ _ HInv HE Hget).
    + destruct (put k v s) as [[] s0 c0|] eqn:Hput; [|done].
      injection Hrun1 as _ <- _. by apply (put_Ends _ _ _ _ _ _ HInv HE Hput).
Qed.

End dummies.

(** X12. The dummies stay the constructor's dummies: after any calls the head
    dummy is node 0 and the tail dummy node 1, both still carry key 0 and
    value 0, nothing precedes the head and nothing follows the tail, and
    [_remove] applied to either dummy raises [AttributeError]. *)
Theorem dummies_end_the_list (cap : Z) (ops : list Op) :
  ∃ s c, session cap ops = Return tt s c ∧
    head s = 0 ∧ tail s = 1 ∧
    key <$> heap s !! 0 = Some 0%Z ∧ val <$> heap s !! 0 = Some 0%Z ∧
    key <$> heap s !! 1 = Some 0%Z ∧ val <$> heap s !! 1 = Some 0%Z ∧
    prev_at (heap s) (head s) = Some None ∧
    next_at (heap s) (tail s) = Some None ∧
    _remove (Some (head s)) s = Raise AttributeError ∧
    _remove (Some (tail s)) s = Raise AttributeError.
Proof.
  set (s0 := mkLRUCache cap ∅ 0 1
               [mkNode 0 0 None (Some 1); mkNode 0 0 (Some 0) None]).
  destruct (calls_spec ops s0 [] (__init___Inv cap))
    as (s & c & Hrun & _ & Hh & Ht & _ & HInv).
  assert (Ends s0) as HE0 by done.
  pose proof (calls_Ends _ _ _ _ _ (__init___Inv cap) HE0 Hrun) as [Hhd Htl].
  destruct (frames_calls ops _ _ _ _ Hrun) as (_ & _ & _ & _ & Hf).
  destruct (Hf 0 ltac:(simpl; lia)) as [Hk0 Hv0].
  destruct (Hf 1 ltac:(simpl; lia)) as [Hk1 Hv1].
  exists s, (8 + c). split.
  { unfold session. rewrite __init___run. cbn [continue]. fold s0. by rewrite Hrun. }
  split_and!; [done..| |].
  - unfold _remove. rewrite (bind_Return _ _ s None s 1) by (by apply load_run).
    assert (∃ n, heap s !! head s = Some n) as [n Hn].
    { unfold prev_at in Hhd. destruct (heap s !! head s); [eauto|done]. }
    rewrite (bind_Return _ _ s (next n) s 1) by (apply load_run; by rewrite Hn).
    done.
  - pose proof (inv_linked _ _ HInv) as HL.
    assert (∃ p, prev_at (heap s) (tail s) = Some (Some p) ∧ p < length (heap s))
      as (p & Hp & Hlt).
    { set (es := (model_calls (capacity s0) ops (length (heap s0), [])).2) in *.
      destruct es as [|e0 es0] eqn:Hes.
      - exists (head s). split; [by apply tail_prev_nil|]. by apply prev_at_lt in Hhd.
      - destruct (cons_snoc e0 es0) as (l & e & Heq). rewrite Heq in HL.
        exists (eaddr e). split; [by apply (tail_prev s l)|].
        apply (path_lt s _ _ HL). unfold path. rewrite fmap_app. set_solver. }
    unfold _remove. rewrite (bind_Return _ _ s (Some p) s 1) by (by apply load_run).
    rewrite (bind_Return _ _ s None s 1) by (by apply load_run).
    unfold bind, continue. by rewrite store_run.
Qed.

End lru_cache.